(** * Twisted torus generator (add_mesh_torus.py)

    A shallow embedding of [add_torus], [add_uvs], [add_uvs_one_ribbon] and
    of the radius handling and mesh set-up of [AddTorus.execute], with the
    properties of the generated vertices, faces and UV corners.

    Python [int] is [Z] ([%] on a positive modulus is [Z.modulo]); Python
    [float] is read as a real number in the generator and as a rational
    number or an IEEE binary64 value in the UV mappers.  The ribbon
    mapper only divides once and adds, and is read in exact arithmetic;
    the grid mapper takes [fmod] of a rounded quotient, which can differ
    from the remainder of the exact one by a whole step, and its cells
    are settled in binary64.  The radii of the operator are properties
    of the host with a range, which clamps what is assigned to them. *)

From Stdlib Require Import ZArith List Reals Lra Lia QArith Bool.
From Stdlib Require Import Floats.SpecFloat.
From stdpp Require Import base option list.

Local Open Scope Z_scope.

(** ** Loops *)

(** Python's [range(n)]: empty when [n <= 0]. *)
Definition range (n : Z) : list Z := map Z.of_nat (seq 0 (Z.to_nat n)).

(** [for x in xs: st = body st x]. *)
Definition for_each {St A : Type} (xs : list A) (body : St -> A -> St) (st : St) : St :=
  fold_left body xs st.

(** ** The generator *)

Module Generator.

(** [mathutils.Vector] of size 3 and a 3x3 [mathutils.Matrix], by rows. *)
Definition Vector : Type := (R * R * R)%type.
Definition Matrix : Type := (Vector * Vector * Vector)%type.

(** [Matrix.Rotation(angle, 3, 'Z')]. *)
Definition Rotation_Z (angle : R) : Matrix :=
  ((cos angle, - sin angle, 0),
   (sin angle,   cos angle, 0),
   (0,           0,         1))%R.

Definition dot (a b : Vector) : R :=
  let '(a0, a1, a2) := a in
  let '(b0, b1, b2) := b in
  (a0 * b0 + a1 * b1 + a2 * b2)%R.

(** [matrix @ vec]. *)
Definition matmul (m : Matrix) (v : Vector) : Vector :=
  let '(r0, r1, r2) := m in (dot r0 v, dot r1 v, dot r2 v).

(** [vec[:]]: the three components, as [verts.extend] receives them. *)
Definition components (v : Vector) : list R :=
  let '(x, y, z) := v in [x; y; z].

Definition pi_2 : R := (PI * 2)%R.

(** The variables the two loops of [add_torus] update. *)
Record state : Type := State {
  verts : list R;
  faces : list Z;
  i1 : Z
}.

Section add_torus.

Variables (major_rad minor_rad : R) (major_seg minor_seg : Z)
          (section_angle : R) (section_twist : Z).

Definition twist_step_angle : R :=
  (((pi_2 / IZR minor_seg) / IZR major_seg) * IZR section_twist)%R.

Definition tot_verts : Z := major_seg * minor_seg.

(** [if i >= tot_verts: i = (i - tot_verts + section_twist) % minor_seg]. *)
Definition wrap (i : Z) : Z :=
  if i >=? tot_verts then (i - tot_verts + section_twist) mod minor_seg else i.

(** The vector of lines 51 to 57. *)
Definition vertex (major_index minor_index : Z) : Vector :=
  let matrix := Rotation_Z ((IZR major_index / IZR major_seg) * pi_2)%R in
  let major_twist_angle := (IZR major_index * twist_step_angle)%R in
  let angle :=
    (pi_2 * IZR minor_index / IZR minor_seg + section_angle + major_twist_angle)%R in
  matmul matrix
    (major_rad + (cos angle * minor_rad), 0, sin angle * minor_rad)%R.

(** The condition of line 61. *)
Definition last_of_ring (minor_index : Z) : bool :=
  (minor_seg >? 2) && (minor_index + 1 =? minor_seg).

(** The four indices of lines 61 to 77, for the running index [i]. *)
Definition quad (major_index minor_index i : Z) : list Z :=
  let '(i2, i3, i4) :=
    if last_of_ring minor_index then
      let i2 := major_index * minor_seg in
      let i3 := i + minor_seg in
      let i4 := i2 + minor_seg in
      (i2, i3, i4)
    else
      let i2 := i + 1 in
      let i3 := i + minor_seg in
      let i4 := i3 + 1 in
      (i2, i3, i4) in
  let i2 := wrap i2 in
  let i3 := wrap i3 in
  let i4 := wrap i4 in
  [i; i3; i4; i2].

(** The body of the inner loop. *)
Definition minor_step (major_index : Z) (st : state) (minor_index : Z) : state :=
  {| verts := verts st ++ components (vertex major_index minor_index);
     faces := faces st ++ quad major_index minor_index (i1 st);
     i1 := i1 st + 1 |}.

(** The body of the outer loop. *)
Definition major_step (st : state) (major_index : Z) : state :=
  for_each (range minor_seg) (minor_step major_index) st.

(** [add_torus]: the division of line 40 raises [ZeroDivisionError] when a
    segment count is zero, which is [None] here.  The conversion of an
    [int] beyond the range of a float, which raises [OverflowError] at
    the same line, is left out: the integers are taken within that
    range. *)
Definition add_torus : option (list R * list Z) :=
  if (minor_seg =? 0) || (major_seg =? 0) then None
  else
    let st := for_each (range major_seg) major_step
                {| verts := []; faces := []; i1 := 0 |} in
    Some (verts st, faces st).

End add_torus.

End Generator.

(** ** Python floats of the UV mappers *)

(** The float operations [add_uvs] and [add_uvs_one_ribbon] use.  They are
    instantiated twice: with exact rationals and with IEEE binary64. *)
Class Float (T : Type) : Type := {
  of_int : Z -> T;          (* conversion of an [int] operand *)
  lit_0_0 : T;              (* the literals [0.0], [0.5], [1.0], [2.0] *)
  lit_0_5 : T;
  lit_1_0 : T;
  lit_2_0 : T;
  add : T -> T -> T;
  sub : T -> T -> T;
  quotient : T -> T -> T;   (* [/] on a divisor other than zero *)
  is_zero : T -> bool;
  remainder : T -> T -> option T;   (* [math.fmod]; [None] is [ValueError] *)
  gt : T -> T -> bool
}.

(** [x / y]: [ZeroDivisionError] is [None]. *)
Definition truediv {T} `{Float T} (x y : T) : option T :=
  if is_zero y then None else Some (quotient x y).

Module Exact.

Local Open Scope Q_scope.

(** Truncation towards zero. *)
Definition trunc (q : Q) : Z := Z.quot (Qnum q) (Zpos (Qden q)).

(** C's [fmod]: [x - y * trunc (x / y)], undefined on [y = 0].  On an
    exact step [1 / n] this is the remainder the grid mapper is after;
    in binary64 the step is a rounded quotient, so that for an even [n]
    whose step is rounded up [math.fmod(0.5, step)] is one step short of
    a whole step and not zero. *)
Definition fmod (x y : Q) : option Q :=
  if Qeq_bool y 0 then None
  else Some (Qred (x - y * inject_Z (trunc (x / y)))).

#[export] Instance float_Q : Float Q := {|
  of_int := inject_Z;
  lit_0_0 := 0;
  lit_0_5 := 1 # 2;
  lit_1_0 := 1;
  lit_2_0 := 2;
  add := fun x y => Qred (x + y);
  sub := fun x y => Qred (x - y);
  quotient := fun x y => Qred (x / y);
  is_zero := fun x => Qeq_bool x 0;
  remainder := fmod;
  gt := fun x y => negb (Qle_bool x y)
|}.

End Exact.

Module Binary64.

Definition prec : Z := 53.
Definition emax : Z := 1024.

(** The binary64 value nearest to [m * 2 ^ e]. *)
Definition dyadic (m e : Z) : spec_float := binary_normalize prec emax m e false.

(** [math.fmod] on binary64: the exact remainder of the truncated
    division, which is always representable.  [ValueError] when the
    divisor is zero or the dividend infinite. *)
Definition fmod (x y : spec_float) : option spec_float :=
  match x, y with
  | S754_nan, _ | _, S754_nan => Some S754_nan
  | S754_infinity _, _ => None
  | _, S754_zero _ => None
  | S754_zero _, _ => Some x
  | S754_finite _ _ _, S754_infinity _ => Some x
  | S754_finite sx mx ex, S754_finite _ my ey =>
      let ez := Z.min ex ey in
      let nx := Zpos (fst (shl_align mx ex ez)) in
      let ny := Zpos (fst (shl_align my ey ez)) in
      Some (binary_normalize prec emax (cond_Zopp sx (Z.rem nx ny)) ez sx)
  end.

#[export] Instance float_b64 : Float spec_float := {|
  of_int := fun z => dyadic z 0;
  lit_0_0 := S754_zero false;
  lit_0_5 := dyadic 1 (-1);
  lit_1_0 := dyadic 1 0;
  lit_2_0 := dyadic 1 1;
  add := SFadd prec emax;
  sub := SFsub prec emax;
  quotient := SFdiv prec emax;
  is_zero := fun x => match x with S754_zero _ => true | _ => false end;
  remainder := fmod;
  gt := fun x y => SFltb y x
|}.

(** The rational number a finite binary64 value stands for. *)
Definition value (x : spec_float) : option Q :=
  match x with
  | S754_zero _ => Some 0%Q
  | S754_finite s m e => Some (inject_Z (cond_Zopp s (Zpos m)) * Qpower 2 e)%Q
  | _ => None
  end.

(** [x] is finite and within a millionth of the fraction [c / n]. *)
Definition near (x : spec_float) (c n : Z) : bool :=
  match value x with
  | Some q =>
      Qle_bool (inject_Z c / inject_Z n - (1 # 1000000)) q &&
      Qle_bool q (inject_Z c / inject_Z n + (1 # 1000000))
  | None => false
  end.

End Binary64.

(** ** The mesh *)

Module Mesh.

(** A polygon of [mesh.polygons]: where its loops start and how many. *)
Record polygon : Type := Polygon {
  loop_start : Z;
  loop_total : Z
}.

(** [polygon.loop_indices]. *)
Definition loop_indices (p : polygon) : list Z :=
  map (fun k => loop_start p + k) (range (loop_total p)).

(** What [execute] stores in the mesh: the [co] of the vertices (three
    floats each), the [vertex_index] of the loops, and the polygons. *)
Record mesh : Type := Build_mesh {
  vertices_co : list R;
  n_vertices : Z;
  loops_vertex_index : list Z;
  polygons : list polygon
}.

(** Python's [range(0, n, step)] for a positive step. *)
Definition range_step (n step : Z) : list Z :=
  map (fun k => step * k) (range ((n + step - 1) / step)).

(** [s[i]] on a sequence: a negative index counts from the end, an index
    out of range raises [IndexError] ([None]). *)
Definition index_of {A} (s : list A) (i : Z) : option nat :=
  let n := Z.of_nat (length s) in
  let i := if i <? 0 then i + n else i in
  if (0 <=? i) && (i <? n) then Some (Z.to_nat i) else None.

Definition getitem {A} (s : list A) (i : Z) : option A :=
  k ← index_of s i; s !! k.

(** The coordinates of vertex [k] in the flat buffer. *)
Definition vertex_at (co : list R) (k : Z) : option Generator.Vector :=
  x ← getitem co (3 * k);
  y ← getitem co (3 * k + 1);
  z ← getitem co (3 * k + 2);
  Some (x, y, z).

(** The vertex indices along the loops of polygon [k]. *)
Definition polygon_vertices (m : mesh) (k : Z) : option (list Z) :=
  p ← getitem (polygons m) k;
  mapM (getitem (loops_vertex_index m)) (loop_indices p).

(** Lines 310 to 322 of [execute]. *)
Definition new_mesh (verts_loc : list R) (faces : list Z) : mesh :=
  let nbr_loops := Z.of_nat (length faces) in
  let nbr_polys := nbr_loops / 4 in
  {| vertices_co := verts_loc;
     n_vertices := Z.of_nat (length verts_loc) / 3;
     loops_vertex_index := faces;
     polygons := zip_with Polygon (range_step nbr_loops 4)
                                  (replicate (Z.to_nat nbr_polys) 4) |}.

End Mesh.

(** ** The UV mappers *)

Module UV.

Import Mesh.

(** A UV layer: one slot per loop; [None] is a slot the mapper has not
    written, which keeps what [uv_layers.new()] put there. *)
Abbreviation uv_layer T := (list (option (T * T))).

Section mappers.

Context {T : Type} `{Float T}.


(** [mesh.uv_layers.new()]. *)
Definition new_layer (m : mesh) : uv_layer T :=
  replicate (length (loops_vertex_index m)) None.

(** [uv_data[i].uv = uv]. *)
Definition set_uv (uv_data : uv_layer T) (i : Z) (uv : T * T) : option (uv_layer T) :=
  k ← index_of uv_data i; Some (<[k := Some uv]> uv_data).

(** The four assignments both mappers make for one polygon. *)
Definition set_corners (uv_data : uv_layer T) (loops : list Z)
    (uv0 uv1 uv3 uv2 : T * T) : option (uv_layer T) :=
  l0 ← getitem loops 0; uv_data ← set_uv uv_data l0 uv0;
  l1 ← getitem loops 1; uv_data ← set_uv uv_data l1 uv1;
  l3 ← getitem loops 3; uv_data ← set_uv uv_data l3 uv3;
  l2 ← getitem loops 2; set_uv uv_data l2 uv2.

(** A loop whose body can raise. *)
Definition for_each_try {St A : Type} (xs : list A)
    (body : St -> A -> option St) (st : St) : option St :=
  fold_left (fun acc x => st ← acc; body st x) xs (Some st).

(** *** [add_uvs] *)

Record grid_state : Type := Grid_state {
  g_uv_data : uv_layer T;
  vertex_index : Z;
  u_prev : T;
  u_next : T;
  v_prev : T;
  v_next : T
}.

Definition grid_minor_step (m : mesh) (v_step v_wrap : T)
    (st : grid_state) (_minor_index : Z) : option grid_state :=
  p ← getitem (polygons m) (vertex_index st);
  let loops := loop_indices p in
  uv_data ← set_corners (g_uv_data st) loops
    (u_prev st, v_prev st) (u_next st, v_prev st)
    (u_prev st, v_next st) (u_next st, v_next st);
  let v_prev' :=
    if gt (v_next st) v_wrap then sub (v_next st) lit_1_0 else v_next st in
  Some {| g_uv_data := uv_data;
          vertex_index := vertex_index st + 1;
          u_prev := u_prev st;
          u_next := u_next st;
          v_prev := v_prev';
          v_next := add v_prev' v_step |}.

Definition grid_major_step (m : mesh) (minor_seg : Z)
    (u_step v_step v_init u_wrap v_wrap : T)
    (st : grid_state) (_major_index : Z) : option grid_state :=
  let st := {| g_uv_data := g_uv_data st;
               vertex_index := vertex_index st;
               u_prev := u_prev st;
               u_next := u_next st;
               v_prev := v_init;
               v_next := add v_init v_step |} in
  st ← for_each_try (range minor_seg) (grid_minor_step m v_step v_wrap) st;
  let u_prev' :=
    if gt (u_next st) u_wrap then sub (u_next st) lit_1_0 else u_next st in
  Some {| g_uv_data := g_uv_data st;
          vertex_index := vertex_index st;
          u_prev := u_prev';
          u_next := add u_prev' u_step;
          v_prev := v_prev st;
          v_next := v_next st |}.

Definition add_uvs (m : mesh) (minor_seg major_seg : Z) : option (uv_layer T) :=
  let uv_data := new_layer m in
  u_step ← truediv lit_1_0 (of_int major_seg);
  v_step ← truediv lit_1_0 (of_int minor_seg);
  u_rem ← remainder lit_0_5 u_step;
  let u_init := add lit_0_5 u_rem in
  v_rem ← remainder lit_0_5 v_step;
  let v_init := add lit_0_5 v_rem in
  u_half ← truediv u_step lit_2_0;
  let u_wrap := sub lit_1_0 u_half in
  v_half ← truediv v_step lit_2_0;
  let v_wrap := sub lit_1_0 v_half in
  st ← for_each_try (range major_seg)
         (grid_major_step m minor_seg u_step v_step v_init u_wrap v_wrap)
         {| g_uv_data := uv_data;
            vertex_index := 0;
            u_prev := u_init;
            u_next := add u_init u_step;
            v_prev := v_init;
            v_next := add v_init v_step |};
  Some (g_uv_data st).

(** *** [add_uvs_one_ribbon] *)

Record ribbon_state : Type := Ribbon_state {
  r_uv_data : uv_layer T;
  r_u_prev : T;
  r_u_next : T
}.

Definition ribbon_major_step (m : mesh) (minor_seg : Z) (u_step : T) (off : Z)
    (st : ribbon_state) (idx : Z) : option ribbon_state :=
  let u_prev := r_u_next st in
  let u_next := add u_prev u_step in
  p ← getitem (polygons m) (idx * minor_seg + off);
  let loops := loop_indices p in
  uv_data ← set_corners (r_uv_data st) loops
    (u_prev, lit_0_0) (u_next, lit_0_0) (u_prev, lit_1_0) (u_next, lit_1_0);
  Some {| r_uv_data := uv_data; r_u_prev := u_prev; r_u_next := u_next |}.

Definition ribbon_offset_step (m : mesh) (minor_seg major_seg section_twist : Z)
    (u_step : T) (st : ribbon_state) (offset : Z) : option ribbon_state :=
  let off := (offset * section_twist) mod minor_seg in
  for_each_try (range major_seg) (ribbon_major_step m minor_seg u_step off) st.

Definition add_uvs_one_ribbon (m : mesh)
    (minor_seg major_seg section_twist : Z) : option (uv_layer T) :=
  let uv_data := new_layer m in
  let count := major_seg * minor_seg in
  u_step ← truediv lit_1_0 (of_int count);
  st ← for_each_try (range minor_seg)
         (ribbon_offset_step m minor_seg major_seg section_twist u_step)
         {| r_uv_data := uv_data; r_u_prev := lit_0_0; r_u_next := lit_0_0 |};
  Some (r_uv_data st).

End mappers.

End UV.

(** ** The ribbon in closed form *)

(** The face the ribbon mapper visits at time [t], counting the
    iterations of its inner loop from 0: track [t / major_seg], major
    index [t mod major_seg]. *)
Definition ribbon_face (minor_seg major_seg section_twist t : Z) : Z :=
  (t mod major_seg) * minor_seg + ((t / major_seg) * section_twist) mod minor_seg.

(** [u_next] after [t] iterations. *)
Fixpoint ribbon_u {T} `{Float T} (u_step : T) (t : nat) : T :=
  match t with
  | O => lit_0_0
  | S t => add (ribbon_u u_step t) u_step
  end.

(** The loops of the face of time [t] hold the corners written then. *)
Definition ribbon_painted {T} `{Float T} (minor_seg major_seg section_twist : Z)
    (u_step : T) (uv_data : UV.uv_layer T) (t : Z) : Prop :=
  let f := ribbon_face minor_seg major_seg section_twist t in
  let u_prev := ribbon_u u_step (Z.to_nat t) in
  let u_next := ribbon_u u_step (Z.to_nat (t + 1)) in
  uv_data !! Z.to_nat (4 * f) = Some (Some (u_prev, lit_0_0)) /\
  uv_data !! Z.to_nat (4 * f + 1) = Some (Some (u_next, lit_0_0)) /\
  uv_data !! Z.to_nat (4 * f + 3) = Some (Some (u_prev, lit_1_0)) /\
  uv_data !! Z.to_nat (4 * f + 2) = Some (Some (u_next, lit_1_0)).

(** What holds of the state of the mapper after [t] iterations. *)
Definition ribbon_inv {T} `{Float T} (minor_seg major_seg section_twist : Z)
    (u_step : T) (t : Z) (st : UV.ribbon_state) : Prop :=
  Z.of_nat (length (UV.r_uv_data st)) = 4 * (major_seg * minor_seg) /\
  UV.r_u_next st = ribbon_u u_step (Z.to_nat t) /\
  forall s, 0 <= s < t ->
    ribbon_painted minor_seg major_seg section_twist u_step (UV.r_uv_data st) s.

(** ** The grid in closed form *)

(** The coordinate the grid mapper holds along one axis before step
    [i]: it starts at [init], and every step adds [step] and takes 1.0
    off a value beyond [wrap]. *)
Fixpoint grid_coord {T} `{Float T} (step init wrap : T) (i : nat) : T :=
  match i with
  | O => init
  | S i =>
      let next := add (grid_coord step init wrap i) step in
      if gt next wrap then sub next lit_1_0 else next
  end.

(** What [add_uvs] computes for an axis of [n] segments before its
    loops: the step, the first coordinate and the wrapping value. *)
Definition grid_axis {T} `{Float T} (n : Z) : option (T * T * T) :=
  step ← truediv lit_1_0 (of_int n);
  rem ← remainder lit_0_5 step;
  half ← truediv step lit_2_0;
  Some (step, add lit_0_5 rem, sub lit_1_0 half).

Section grid_closed_form.

Context {T : Type} `{Float T}.
Variables (minor_seg : Z) (u_step u_init u_wrap v_step v_init v_wrap : T).

(** The loops of face [k] hold the corners of ring [k / minor_seg] and
    minor index [k mod minor_seg]. *)
Definition grid_painted (uv_data : UV.uv_layer T) (k : Z) : Prop :=
  let u := grid_coord u_step u_init u_wrap (Z.to_nat (k / minor_seg)) in
  let v := grid_coord v_step v_init v_wrap (Z.to_nat (k mod minor_seg)) in
  uv_data !! Z.to_nat (4 * k) = Some (Some (u, v)) /\
  uv_data !! Z.to_nat (4 * k + 1) = Some (Some (add u u_step, v)) /\
  uv_data !! Z.to_nat (4 * k + 3) = Some (Some (u, add v v_step)) /\
  uv_data !! Z.to_nat (4 * k + 2) = Some (Some (add u u_step, add v v_step)).

(** What holds of the state of the grid mapper before ring [i], with
    [k] faces written. *)
Definition grid_ring_inv (major_seg : Z) (k i : Z) (st : UV.grid_state) : Prop :=
  Z.of_nat (length (UV.g_uv_data st)) = 4 * (major_seg * minor_seg) /\
  UV.vertex_index st = k /\
  UV.u_prev st = grid_coord u_step u_init u_wrap (Z.to_nat i) /\
  UV.u_next st = add (UV.u_prev st) u_step /\
  forall k', 0 <= k' < k -> grid_painted (UV.g_uv_data st) k'.

(** What holds of it before minor index [j] of ring [i]. *)
Definition grid_inv (major_seg : Z) (i j : Z) (st : UV.grid_state) : Prop :=
  grid_ring_inv major_seg (i * minor_seg + j) i st /\
  UV.v_prev st = grid_coord v_step v_init v_wrap (Z.to_nat j) /\
  UV.v_next st = add (UV.v_prev st) v_step.

End grid_closed_form.

(** *** The cells of the grid in binary64 *)

Section grid_cells.

Import Binary64.

(** Whether the binary64 quotient [1.0 / n] lies above [1 / n]. *)
Definition step_rounded_up (n : Z) : bool :=
  match value (quotient lit_1_0 (of_int n)) with
  | Some q => negb (Qle_bool q (1 / inject_Z n))
  | None => false
  end.

(** The column (or row) of [n] that ring (or minor index) 0 gets: the
    one that starts at [0.5 + fmod(0.5, step)].  For an odd [n] the
    remainder is half a step.  For an even [n] it is zero when the step
    is [1 / n] or below, and one step short of a whole step when the
    step is rounded up, as for 10, 20 and 22 segments: the first cell is
    then one further. *)
Definition grid_first_cell (n : Z) : Z :=
  (n + 1) / 2 + (if Z.even n && step_rounded_up n then 1 else 0).

(** The column (or row) of ring (or minor index) [i]. *)
Definition grid_cell (n i : Z) : Z := (i + grid_first_cell n) mod n.

(** The coordinates of [k] steps along an axis of [n] segments, from
    the coordinate [x] of cell [c], are those of the cells that follow
    [c] cyclically. *)
Fixpoint axis_near (n : Z) (step wrap x : spec_float) (c : Z) (k : nat) : bool :=
  match k with
  | O => true
  | S k =>
      let next := add x step in
      near x c n && near next (c + 1) n &&
      axis_near n step wrap
        (if gt next wrap then sub next lit_1_0 else next) ((c + 1) mod n) k
  end.

(** The same of a whole axis of [n] segments. *)
Definition axis_ok (n : Z) : bool :=
  match grid_axis n with
  | Some (step, init, wrap) =>
      axis_near n step wrap init (grid_cell n 0) (Z.to_nat n)
  | None => false
  end.

End grid_cells.

(** [f] holds of the [2 ^ k] integers from [lo] on. *)
Fixpoint all_in (f : Z -> bool) (k : nat) (lo : Z) : bool :=
  match k with
  | O => f lo
  | S k => all_in f k lo && all_in f k (lo + 2 ^ Z.of_nat k)
  end.

(** ** What the ribbon mapper has written *)

(** After [t] iterations of the ribbon mapper: the faces visited so far
    are written, nothing else is, and V is 0 on the first two loops of a
    face and 1 on the other two. *)
Definition ribbon_written {T} `{Float T} (minor_seg major_seg section_twist : Z)
    (t : Z) (uv_data : UV.uv_layer T) : Prop :=
  (forall s c, 0 <= s < t -> 0 <= c < 4 ->
     exists x,
       uv_data !! Z.to_nat (4 * ribbon_face minor_seg major_seg section_twist s + c)
       = Some (Some x)) /\
  (forall (l : nat) x, uv_data !! l = Some (Some x) ->
     (exists s, 0 <= s < t /\
        4 * ribbon_face minor_seg major_seg section_twist s <= Z.of_nat l
          <= 4 * ribbon_face minor_seg major_seg section_twist s + 3) /\
     snd x = if Z.of_nat l mod 4 <? 2 then lit_0_0 else lit_1_0).

(** The same of the state of the mapper. *)
Definition ribbon_written_inv {T} `{Float T}
    (minor_seg major_seg section_twist : Z) (t : Z) (st : UV.ribbon_state) : Prop :=
  Z.of_nat (length (UV.r_uv_data st)) = 4 * (major_seg * minor_seg) /\
  ribbon_written minor_seg major_seg section_twist t (UV.r_uv_data st).

(** ** The operator *)

Module Operator.

Import Mesh UV.

Inductive mode_t : Type := MAJOR_MINOR | EXT_INT.

(** The properties of [AddTorus] that [execute] and
    [mode_update_callback] read and write. *)
Record AddTorus : Type := Build_AddTorus {
  major_segments : Z;
  minor_segments : Z;
  section_angle : R;
  section_twist : Z;
  mode : mode_t;
  major_radius : R;
  minor_radius : R;
  abso_major_rad : R;
  abso_minor_rad : R;
  generate_uvs : bool
}.

(** The four radii are [FloatProperty(min=0.0, max=10_000.0)]: the host
    clamps a value assigned to such a property to its range. *)
Definition radius_min : R := 0.
Definition radius_max : R := 10000.

Definition clamp_radius (x : R) : R :=
  if Rlt_dec x radius_min then radius_min
  else if Rlt_dec radius_max x then radius_max
  else x.

(** [self.major_radius = x]. *)
Definition set_major_radius (self : AddTorus) (x : R) : AddTorus :=
  {| major_segments := major_segments self; minor_segments := minor_segments self;
     section_angle := section_angle self; section_twist := section_twist self;
     mode := mode self;
     major_radius := clamp_radius x; minor_radius := minor_radius self;
     abso_major_rad := abso_major_rad self; abso_minor_rad := abso_minor_rad self;
     generate_uvs := generate_uvs self |}.

(** [self.minor_radius = x]. *)
Definition set_minor_radius (self : AddTorus) (x : R) : AddTorus :=
  {| major_segments := major_segments self; minor_segments := minor_segments self;
     section_angle := section_angle self; section_twist := section_twist self;
     mode := mode self;
     major_radius := major_radius self; minor_radius := clamp_radius x;
     abso_major_rad := abso_major_rad self; abso_minor_rad := abso_minor_rad self;
     generate_uvs := generate_uvs self |}.

(** [self.abso_major_rad = x]. *)
Definition set_abso_major_rad (self : AddTorus) (x : R) : AddTorus :=
  {| major_segments := major_segments self; minor_segments := minor_segments self;
     section_angle := section_angle self; section_twist := section_twist self;
     mode := mode self; major_radius := major_radius self;
     minor_radius := minor_radius self;
     abso_major_rad := clamp_radius x; abso_minor_rad := abso_minor_rad self;
     generate_uvs := generate_uvs self |}.

(** [self.abso_minor_rad = x]. *)
Definition set_abso_minor_rad (self : AddTorus) (x : R) : AddTorus :=
  {| major_segments := major_segments self; minor_segments := minor_segments self;
     section_angle := section_angle self; section_twist := section_twist self;
     mode := mode self; major_radius := major_radius self;
     minor_radius := minor_radius self;
     abso_major_rad := abso_major_rad self; abso_minor_rad := clamp_radius x;
     generate_uvs := generate_uvs self |}.

(** [mode_update_callback]: the exterior and interior radius from the
    major and minor radius, each clamped as it is stored. *)
Definition mode_update_callback (self : AddTorus) : AddTorus :=
  match mode self with
  | EXT_INT =>
      let self := set_abso_major_rad self (major_radius self + minor_radius self)%R in
      set_abso_minor_rad self (major_radius self - minor_radius self)%R
  | MAJOR_MINOR => self
  end.

(** Lines 296 to 299 of [execute]: [extra_helper] is a local variable and
    is not clamped, the two properties assigned from it are. *)
Definition update_radii (self : AddTorus) : AddTorus :=
  match mode self with
  | EXT_INT =>
      let extra_helper := ((abso_major_rad self - abso_minor_rad self) * 0.5)%R in
      let self := set_major_radius self (abso_minor_rad self + extra_helper)%R in
      set_minor_radius self extra_helper
  | MAJOR_MINOR => self
  end.

(** Lines 324 to 328 of [execute]: the UV layer, if one is asked for. *)
Definition add_uv_layer {T} `{Float T} (self : AddTorus) (m : mesh)
    : option (option (uv_layer T)) :=
  if generate_uvs self then
    if section_twist self mod minor_segments self =? 0 then
      Some <$> add_uvs m (minor_segments self) (major_segments self)
    else
      Some <$> add_uvs_one_ribbon m (minor_segments self) (major_segments self)
                 (section_twist self)
  else Some None.

(** [execute], up to the insertion of the object in the scene: the
    operator after the update of its radii, the mesh and its UV layer. *)
Definition execute {T} `{Float T} (self : AddTorus)
    : option (AddTorus * mesh * option (uv_layer T)) :=
  let self := update_radii self in
  '(verts_loc, faces) ←
    Generator.add_torus (major_radius self) (minor_radius self)
      (major_segments self) (minor_segments self)
      (section_angle self) (section_twist self);
  let m := new_mesh verts_loc faces in
  uv ← add_uv_layer self m;
  Some (self, m, uv).

End Operator.

(** ** Geometry used to state the properties *)

Module Geometry.

Import Generator.

(** The rotation about the Z axis by [a], in coordinates. *)
Definition rotate_z (a : R) (p : Vector) : Vector :=
  let '(x, y, z) := p in
  (x * cos a - y * sin a, x * sin a + y * cos a, z)%R.

(** The Euclidean distance of two points. *)
Definition distance (p q : Vector) : R :=
  let '(px, py, pz) := p in
  let '(qx, qy, qz) := q in
  sqrt ((px - qx) * (px - qx) + (py - qy) * (py - qy) + (pz - qz) * (pz - qz))%R.

End Geometry.

(** * Properties *)

(** ** Ranges and blocks *)

Lemma range_of_nat (n : nat) : range (Z.of_nat n) = map Z.of_nat (seq 0 n).
Proof. unfold range. now rewrite Nat2Z.id. Qed.

Lemma range_succ (n : nat) :
  range (Z.of_nat (S n)) = range (Z.of_nat n) ++ [Z.of_nat n].
Proof. rewrite !range_of_nat, seq_S, map_app. reflexivity. Qed.

Lemma range_length (n : Z) : length (range n) = Z.to_nat n.
Proof. unfold range. now rewrite length_map, length_seq. Qed.

Lemma range_lookup (n : Z) (k : nat) :
  (k < Z.to_nat n)%nat -> range n !! k = Some (Z.of_nat k).
Proof.
  intros Hk. unfold range. rewrite list_lookup_fmap.
  rewrite lookup_seq_lt by assumption. reflexivity.
Qed.

Lemma range_add (a b : nat) :
  range (Z.of_nat (a + b)) =
  range (Z.of_nat a) ++ map (fun j => Z.of_nat a + j) (range (Z.of_nat b)).
Proof.
  rewrite !range_of_nat, seq_app, map_app. f_equal.
  rewrite map_map. simpl. replace a with (a + 0)%nat at 1 by lia.
  rewrite <- (fmap_add_seq a 0 b).
  change (map Z.of_nat (Nat.add a <$> seq 0 b))
    with (map Z.of_nat (map (Nat.add a) (seq 0 b))).
  rewrite map_map. apply map_ext. intros j. lia.
Qed.

(** A loop that appends one block per element and counts. *)
Lemma flat_map_snoc {A B} (f : A -> list B) (l : list A) (x : A) :
  flat_map f (l ++ [x]) = flat_map f l ++ f x.
Proof. rewrite flat_map_app. simpl. now rewrite app_nil_r. Qed.

(** The block of a concatenation of blocks of one size. *)
Lemma flat_map_block {A B} (f : A -> list B) (c : nat) (l : list A) (k : nat) (x : A) :
  (forall y, length (f y) = c) ->
  l !! k = Some x ->
  take c (drop (c * k) (flat_map f l)) = f x.
Proof.
  intros Hc. revert k. induction l as [|y l IH]; intros k Hk; [discriminate|].
  destruct k as [|k]; simpl in *.
  - injection Hk as ->. rewrite Nat.mul_0_r, drop_0.
    rewrite take_app_length' by (symmetry; apply Hc). reflexivity.
  - replace (c * S k)%nat with (length (f y) + c * k)%nat by (rewrite Hc; lia).
    rewrite drop_app_add. apply IH, Hk.
Qed.

Lemma flat_map_length_const {A B} (f : A -> list B) (c : nat) (l : list A) :
  (forall y, length (f y) = c) -> length (flat_map f l) = (c * length l)%nat.
Proof.
  intros Hc. induction l as [|y l IH]; simpl; [lia|].
  rewrite length_app, Hc, IH. lia.
Qed.

Lemma flat_map_ext_in {A B} (f g : A -> list B) (l : list A) :
  (forall a, In a l -> f a = g a) -> flat_map f l = flat_map g l.
Proof.
  induction l as [|y l IH]; intros Hfg; simpl; [reflexivity|].
  rewrite (Hfg y) by now left. rewrite IH; [reflexivity|].
  intros a Ha. apply Hfg. now right.
Qed.

Lemma flat_map_map {A B C} (g : A -> B) (f : B -> list C) (l : list A) :
  flat_map f (map g l) = flat_map (fun a => f (g a)) l.
Proof. induction l as [|y l IH]; simpl; [reflexivity|]. now rewrite IH. Qed.

Lemma in_range (n x : Z) : In x (range n) <-> 0 <= x < n.
Proof.
  unfold range. rewrite in_map_iff. split.
  - intros (k & <- & Hk). apply in_seq in Hk. lia.
  - intros Hx. exists (Z.to_nat x). split; [lia|]. apply in_seq. lia.
Qed.

(** ** The two loops of the generator *)

Section generator_loops.

Import Generator.

Variables (major_rad minor_rad : R) (major_seg minor_seg : Z)
          (section_angle : R) (section_twist : Z).

Local Abbreviation vertex :=
  (Generator.vertex major_rad minor_rad major_seg minor_seg
     section_angle section_twist).
Local Abbreviation quad := (Generator.quad major_seg minor_seg section_twist).
Local Abbreviation minor_step :=
  (Generator.minor_step major_rad minor_rad major_seg minor_seg
     section_angle section_twist).
Local Abbreviation major_step :=
  (Generator.major_step major_rad minor_rad major_seg minor_seg
     section_angle section_twist).

(** The inner loop appends one vertex and one quad per minor index and
    advances [i1] by one each time. *)
Lemma minor_loop (n : nat) (major_index : Z) (st : state) :
  for_each (range (Z.of_nat n)) (minor_step major_index) st =
  {| verts := verts st ++
       flat_map (fun j => components (vertex major_index j)) (range (Z.of_nat n));
     faces := faces st ++
       flat_map (fun j => quad major_index j (i1 st + j)) (range (Z.of_nat n));
     i1 := i1 st + Z.of_nat n |}.
Proof.
  unfold for_each. induction n as [|n IH].
  - simpl. rewrite !app_nil_r, Z.add_0_r. now destruct st.
  - rewrite range_succ, fold_left_app, IH. simpl.
    rewrite !flat_map_snoc, !app_assoc. unfold Generator.minor_step.
    simpl. f_equal. lia.
Qed.

(** The outer loop, started on the empty lists: vertex and quad [k]
    belong to ring [k / minor_seg] and minor index [k mod minor_seg]. *)
Lemma major_loop (m n : nat) :
  minor_seg = Z.of_nat n -> (0 < n)%nat ->
  for_each (range (Z.of_nat m)) major_step {| verts := []; faces := []; i1 := 0 |} =
  {| verts :=
       flat_map (fun k => components (vertex (k / minor_seg) (k mod minor_seg)))
         (range (Z.of_nat (m * n)));
     faces :=
       flat_map (fun k => quad (k / minor_seg) (k mod minor_seg) k)
         (range (Z.of_nat (m * n)));
     i1 := Z.of_nat (m * n) |}.
Proof.
  intros Hn Hpos. unfold for_each. induction m as [|m IH]; [reflexivity|].
  rewrite range_succ, fold_left_app, IH. simpl fold_left.
  unfold Generator.major_step. rewrite Hn at 1.
  rewrite minor_loop. simpl verts. simpl faces. simpl i1.
  replace (S m * n)%nat with (m * n + n)%nat by lia.
  rewrite range_add, !flat_map_app, !flat_map_map. f_equal.
  - f_equal. apply flat_map_ext_in. intros j Hj. apply in_range in Hj.
    replace ((Z.of_nat (m * n) + j) / minor_seg) with (Z.of_nat m)
      by (apply (Z.div_unique _ _ _ j); nia).
    replace ((Z.of_nat (m * n) + j) mod minor_seg) with j
      by (apply (Z.mod_unique _ _ (Z.of_nat m)); nia).
    reflexivity.
  - f_equal. apply flat_map_ext_in. intros j Hj. apply in_range in Hj.
    replace ((Z.of_nat (m * n) + j) / minor_seg) with (Z.of_nat m)
      by (apply (Z.div_unique _ _ _ j); nia).
    replace ((Z.of_nat (m * n) + j) mod minor_seg) with j
      by (apply (Z.mod_unique _ _ (Z.of_nat m)); nia).
    reflexivity.
  - lia.
Qed.

(** [add_torus] returns, and what it returns. *)
Lemma add_torus_eq :
  0 < major_seg -> 0 < minor_seg ->
  add_torus major_rad minor_rad major_seg minor_seg section_angle section_twist =
  Some
    (flat_map (fun k => components (vertex (k / minor_seg) (k mod minor_seg)))
       (range (major_seg * minor_seg)),
     flat_map (fun k => quad (k / minor_seg) (k mod minor_seg) k)
       (range (major_seg * minor_seg))).
Proof.
  intros Hmaj Hmin. unfold add_torus.
  destruct (Z.eqb_spec minor_seg 0) as [?|_]; [lia|].
  destruct (Z.eqb_spec major_seg 0) as [?|_]; [lia|]. cbn [orb].
  replace (range major_seg) with (range (Z.of_nat (Z.to_nat major_seg)))
    by (f_equal; lia).
  rewrite (major_loop (Z.to_nat major_seg) (Z.to_nat minor_seg)) by lia.
  cbn [verts faces].
  replace (Z.of_nat (Z.to_nat major_seg * Z.to_nat minor_seg))
    with (major_seg * minor_seg) by lia.
  reflexivity.
Qed.

End generator_loops.

(** ** Reading the mesh *)

Section mesh_facts.

Import Mesh.

Lemma index_of_in_range {A} (s : list A) (i : Z) :
  0 <= i < Z.of_nat (length s) -> index_of s i = Some (Z.to_nat i).
Proof.
  intros Hi. unfold index_of.
  destruct (Z.ltb_spec i 0) as [?|_]; [lia|].
  destruct (Z.leb_spec 0 i) as [_|?]; [|lia].
  destruct (Z.ltb_spec i (Z.of_nat (length s))) as [_|?]; [|lia].
  reflexivity.
Qed.

Lemma getitem_lookup {A} (s : list A) (i : Z) (x : A) :
  0 <= i -> s !! Z.to_nat i = Some x -> getitem s i = Some x.
Proof.
  intros Hi Hx. unfold getitem.
  rewrite index_of_in_range; [exact Hx|].
  apply lookup_lt_Some in Hx. lia.
Qed.

Lemma block_lookup {A} (l : list A) (c n r : nat) (b : list A) (x : A) :
  take c (drop n l) = b -> b !! r = Some x -> l !! (n + r)%nat = Some x.
Proof.
  intros <- Hr. rewrite <- lookup_drop.
  destruct (decide (r < c)%nat) as [Hlt|Hge].
  - now rewrite lookup_take_lt in Hr.
  - rewrite lookup_take_ge in Hr by lia. discriminate.
Qed.

Lemma range_step_lookup (n : Z) (k : nat) :
  (k < Z.to_nat ((n + 3) / 4))%nat ->
  range_step n 4 !! k = Some (4 * Z.of_nat k).
Proof.
  intros Hk. unfold range_step. rewrite list_lookup_fmap.
  replace (n + 4 - 1) with (n + 3) by lia.
  rewrite range_lookup by assumption. reflexivity.
Qed.

(** The polygons [execute] lays out: polygon [k] starts at loop [4 * k]
    and has [4] loops. *)
Lemma new_mesh_polygon (verts_loc : list R) (faces : list Z) (n k : Z) :
  Z.of_nat (length faces) = 4 * n -> 0 <= k < n ->
  getitem (polygons (new_mesh verts_loc faces)) k =
    Some {| loop_start := 4 * k; loop_total := 4 |}.
Proof.
  intros Hlen Hk. cbn [new_mesh polygons]. rewrite Hlen.
  replace (4 * n / 4) with n by (apply Z.div_unique_exact; lia).
  apply getitem_lookup; [lia|].
  rewrite lookup_zip_with.
  rewrite range_step_lookup.
  - rewrite lookup_replicate_2 by lia. cbn. f_equal. f_equal. lia.
  - replace ((4 * n + 3) / 4) with n
      by (apply (Z.div_unique _ _ _ 3); lia).
    lia.
Qed.

Lemma new_mesh_polygons_length (verts_loc : list R) (faces : list Z) (n : Z) :
  Z.of_nat (length faces) = 4 * n ->
  Z.of_nat (length (polygons (new_mesh verts_loc faces))) = n.
Proof.
  intros Hlen. cbn [new_mesh polygons]. rewrite Hlen.
  replace (4 * n / 4) with n by (apply Z.div_unique_exact; lia).
  rewrite length_zip_with, length_replicate. unfold range_step.
  rewrite length_map, range_length.
  replace ((4 * n + 4 - 1) / 4) with n
    by (apply (Z.div_unique _ _ _ 3); lia).
  lia.
Qed.

(** The vertex indices of polygon [k] are block [k] of the flat list. *)
Lemma new_mesh_polygon_vertices (verts_loc : list R) (faces : list Z)
    (n k a b c d : Z) :
  Z.of_nat (length faces) = 4 * n -> 0 <= k < n ->
  take 4 (drop (4 * Z.to_nat k) faces) = [a; b; c; d] ->
  polygon_vertices (new_mesh verts_loc faces) k = Some [a; b; c; d].
Proof.
  intros Hlen Hk Hblock. unfold polygon_vertices.
  rewrite (new_mesh_polygon _ _ n) by assumption. cbn [mbind option_bind].
  cbn [new_mesh loops_vertex_index].
  assert (Hget : forall r x, 0 <= r < 4 -> [a; b; c; d] !! Z.to_nat r = Some x ->
            getitem faces (4 * k + r) = Some x).
  { intros r x Hr Hx. apply getitem_lookup; [lia|].
    replace (Z.to_nat (4 * k + r)) with (4 * Z.to_nat k + Z.to_nat r)%nat by lia.
    eapply block_lookup; eassumption. }
  change (loop_indices {| loop_start := 4 * k; loop_total := 4 |})
    with [4 * k + 0; 4 * k + 1; 4 * k + 2; 4 * k + 3].
  cbn [mapM].
  rewrite (Hget 0 a), (Hget 1 b), (Hget 2 c), (Hget 3 d)
    by (reflexivity || lia).
  reflexivity.
Qed.

(** The coordinates of vertex [k] are block [k] of the flat buffer. *)
Lemma vertex_at_block (co : list R) (k : Z) (x y z : R) :
  0 <= k ->
  take 3 (drop (3 * Z.to_nat k) co) = [x; y; z] ->
  vertex_at co k = Some (x, y, z).
Proof.
  intros Hk Hblock. unfold vertex_at.
  assert (Hget : forall r v, 0 <= r < 3 -> [x; y; z] !! Z.to_nat r = Some v ->
            getitem co (3 * k + r) = Some v).
  { intros r v Hr Hv. apply getitem_lookup; [lia|].
    replace (Z.to_nat (3 * k + r)) with (3 * Z.to_nat k + Z.to_nat r)%nat by lia.
    eapply block_lookup; eassumption. }
  replace (3 * k) with (3 * k + 0) at 1 by lia.
  rewrite (Hget 0 x), (Hget 1 y), (Hget 2 z) by (reflexivity || lia).
  reflexivity.
Qed.

End mesh_facts.

(** ** What the generator returns *)

Section generator_facts.

Import Generator Mesh.

Variables (major_rad minor_rad : R) (major_seg minor_seg : Z)
          (section_angle : R) (section_twist : Z).

Local Abbreviation vertex :=
  (Generator.vertex major_rad minor_rad major_seg minor_seg
     section_angle section_twist).
Local Abbreviation quad := (Generator.quad major_seg minor_seg section_twist).
Local Abbreviation wrap := (Generator.wrap major_seg minor_seg section_twist).
Local Abbreviation add_torus :=
  (Generator.add_torus major_rad minor_rad major_seg minor_seg
     section_angle section_twist).

Lemma quad_eq (major_index minor_index i : Z) :
  quad major_index minor_index i =
  [ i;
    wrap (i + minor_seg);
    wrap (if last_of_ring minor_seg minor_index
          then major_index * minor_seg + minor_seg else i + minor_seg + 1);
    wrap (if last_of_ring minor_seg minor_index
          then major_index * minor_seg else i + 1) ].
Proof.
  unfold Generator.quad.
  destruct (last_of_ring minor_seg minor_index); reflexivity.
Qed.

Lemma quad_length (major_index minor_index i : Z) :
  length (quad major_index minor_index i) = 4%nat.
Proof. now rewrite quad_eq. Qed.

Lemma components_length (v : Vector) : length (components v) = 3%nat.
Proof. now destruct v as [[x y] z]. Qed.

Lemma div_mod_grid (i j : Z) :
  0 <= j < minor_seg ->
  (i * minor_seg + j) / minor_seg = i /\ (i * minor_seg + j) mod minor_seg = j.
Proof.
  intros Hj. split.
  - symmetry. apply (Z.div_unique _ _ _ j); lia.
  - symmetry. apply (Z.mod_unique _ _ i); lia.
Qed.

(** The result of [add_torus], read through the mesh [execute] builds. *)
Lemma add_torus_mesh :
  0 < major_seg -> 0 < minor_seg ->
  exists verts_loc faces,
    add_torus = Some (verts_loc, faces) /\
    Z.of_nat (length verts_loc) = 3 * (major_seg * minor_seg) /\
    Z.of_nat (length faces) = 4 * (major_seg * minor_seg) /\
    forall i j, 0 <= i < major_seg -> 0 <= j < minor_seg ->
      vertex_at verts_loc (i * minor_seg + j) = Some (vertex i j) /\
      polygon_vertices (new_mesh verts_loc faces) (i * minor_seg + j) =
        Some (quad i j (i * minor_seg + j)).
Proof.
  intros Hmaj Hmin. eexists _, _. split; [apply add_torus_eq; assumption|].
  assert (Hv : Z.of_nat (length (flat_map
            (fun k => components (vertex (k / minor_seg) (k mod minor_seg)))
            (range (major_seg * minor_seg)))) = 3 * (major_seg * minor_seg)).
  { rewrite (flat_map_length_const _ 3) by (intros; apply components_length).
    rewrite range_length. nia. }
  assert (Hf : Z.of_nat (length (flat_map
            (fun k => quad (k / minor_seg) (k mod minor_seg) k)
            (range (major_seg * minor_seg)))) = 4 * (major_seg * minor_seg)).
  { rewrite (flat_map_length_const _ 4) by (intros; apply quad_length).
    rewrite range_length. nia. }
  split; [exact Hv|]. split; [exact Hf|].
  intros i j Hi Hj.
  assert (Hk : 0 <= i * minor_seg + j < major_seg * minor_seg) by nia.
  destruct (div_mod_grid i j Hj) as [Hdiv Hmod].
  assert (Hlook : range (major_seg * minor_seg) !! Z.to_nat (i * minor_seg + j)
                  = Some (i * minor_seg + j)).
  { rewrite range_lookup by lia. f_equal. lia. }
  split.
  - pose proof (flat_map_block
      (fun k => components (vertex (k / minor_seg) (k mod minor_seg)))
      3 _ _ _ (fun y => components_length _) Hlook) as Hblock.
    cbv beta in Hblock. rewrite Hdiv, Hmod in Hblock.
    destruct (vertex i j) as [[x y] z] eqn:Evertex.
    apply vertex_at_block; [lia|]. exact Hblock.
  - pose proof (flat_map_block
      (fun k => quad (k / minor_seg) (k mod minor_seg) k)
      4 _ _ _ (fun y => quad_length _ _ _) Hlook) as Hblock.
    cbv beta in Hblock. rewrite Hdiv, Hmod in Hblock.
    rewrite quad_eq in Hblock |- *.
    eapply new_mesh_polygon_vertices; [exact Hf|lia|exact Hblock].
Qed.

End generator_facts.

Lemma mod_eq_multiple (a b n : Z) :
  a mod n = b mod n -> exists q, a - b = q * n.
Proof.
  intros Heq. destruct (Z.eq_dec n 0) as [->|Hn].
  - rewrite !Z.mod_0_r in Heq. exists 0. lia.
  - exists (a / n - b / n).
    pose proof (Z.div_mod a n Hn). pose proof (Z.div_mod b n Hn). nia.
Qed.

Lemma NoDup_4 {A} (a b c d : A) :
  a <> b -> a <> c -> a <> d -> b <> c -> b <> d -> c <> d -> NoDup [a; b; c; d].
Proof.
  intros. repeat (apply NoDup_cons; split; [rewrite ?elem_of_cons, elem_of_nil; tauto|]).
  apply NoDup_nil_2.
Qed.

(** ** The arithmetic of one quad *)

Section quad_arith.

Import Generator.
Variables (major_seg minor_seg section_twist : Z).
Local Abbreviation quad := (Generator.quad major_seg minor_seg section_twist).
Local Abbreviation wrap := (Generator.wrap major_seg minor_seg section_twist).
Local Abbreviation tot := (major_seg * minor_seg).

Lemma wrap_below (x : Z) : x < tot -> wrap x = x.
Proof.
  intros Hx. unfold Generator.wrap, tot_verts.
  destruct (Z.geb_spec x tot); [lia|reflexivity].
Qed.

Lemma wrap_beyond (x : Z) :
  tot <= x -> wrap x = (x - tot + section_twist) mod minor_seg.
Proof.
  intros Hx. unfold Generator.wrap, tot_verts.
  destruct (Z.geb_spec x tot); [reflexivity|lia].
Qed.

Lemma wrap_beyond_bound (x : Z) :
  0 < minor_seg -> tot <= x -> 0 <= wrap x < minor_seg.
Proof.
  intros Hmin Hx. rewrite wrap_beyond by assumption.
  apply Z.mod_pos_bound. assumption.
Qed.

Lemma wrap_beyond_eq (x y : Z) :
  0 < minor_seg -> tot <= x -> tot <= y -> - minor_seg < x - y < minor_seg ->
  wrap x = wrap y -> x = y.
Proof.
  intros Hmin Hx Hy Hd. rewrite !wrap_beyond by assumption. intros Heq.
  apply mod_eq_multiple in Heq. destruct Heq as [q Hq].
  assert (Hq0 : q = 0) by nia. subst q. lia.
Qed.

Lemma quad_in_range (i j : Z) :
  1 <= major_seg -> 1 <= minor_seg -> 0 <= i < major_seg -> 0 <= j < minor_seg ->
  Forall (fun x => 0 <= x < tot) (quad i j (i * minor_seg + j)).
Proof.
  intros Hmaj Hmin Hi Hj.
  assert (Hmn : minor_seg <= tot) by nia.
  assert (Hk : 0 <= i * minor_seg + j < tot) by nia.
  assert (Hw : forall x, 0 <= x -> 0 <= wrap x < tot).
  { intros x Hx. destruct (Z.lt_ge_cases x tot) as [Hlt|Hge].
    - rewrite wrap_below by assumption. lia.
    - pose proof (wrap_beyond_bound x ltac:(lia) Hge). lia. }
  rewrite quad_eq. repeat apply Forall_cons_2; try apply Forall_nil_2.
  - exact Hk.
  - apply Hw. lia.
  - apply Hw. destruct (last_of_ring minor_seg j); nia.
  - apply Hw. destruct (last_of_ring minor_seg j); nia.
Qed.

Lemma last_of_ring_true (j : Z) :
  last_of_ring minor_seg j = true <-> 2 < minor_seg /\ j + 1 = minor_seg.
Proof.
  unfold last_of_ring. rewrite andb_true_iff, Z.gtb_ltb, Z.ltb_lt, Z.eqb_eq.
  reflexivity.
Qed.

Lemma quad_nodup (i j : Z) :
  3 <= major_seg -> 2 <= minor_seg -> 0 <= i < major_seg -> 0 <= j < minor_seg ->
  2 < minor_seg \/ i * minor_seg + j <> tot - 1 ->
  NoDup (quad i j (i * minor_seg + j)).
Proof.
  intros Hmaj Hmin Hi Hj Hlast.
  rewrite quad_eq.
  set (M := i * minor_seg) in *.
  assert (HM : 0 <= M) by (unfold M; nia).
  assert (Hring : (i = major_seg - 1 /\ tot = M + minor_seg /\ minor_seg <= M) \/
                  (i = major_seg - 2 /\ tot = M + 2 * minor_seg /\ minor_seg <= M) \/
                  (i <= major_seg - 3 /\ M + 3 * minor_seg <= tot)).
  { unfold M. destruct (Z.eq_dec i (major_seg - 1)) as [->|?]; [left; nia|].
    destruct (Z.eq_dec i (major_seg - 2)) as [->|?]; [right; left; nia|].
    right; right. nia. }
  clearbody M.
  destruct (last_of_ring minor_seg j) eqn:Elast.
  - apply last_of_ring_true in Elast. destruct Elast as [Hgt Hjl].
    destruct Hring as [(Hi' & Htot & HMn)|[(Hi' & Htot & HMn)|(Hi' & Htot)]].
    + rewrite (wrap_below M) by lia.
      pose proof (wrap_beyond_bound (M + j + minor_seg) ltac:(lia) ltac:(lia)).
      pose proof (wrap_beyond_bound (M + minor_seg) ltac:(lia) ltac:(lia)).
      apply NoDup_4; try lia.
      intros Heq. apply wrap_beyond_eq in Heq; lia.
    + rewrite !wrap_below by lia. apply NoDup_4; lia.
    + rewrite !wrap_below by lia. apply NoDup_4; lia.
  - assert (Hnl : minor_seg = 2 \/ j + 1 < minor_seg).
    { destruct (Z.eq_dec minor_seg 2) as [?|?]; [now left|right].
      destruct (Z.eq_dec (j + 1) minor_seg) as [?|?]; [|lia].
      assert (last_of_ring minor_seg j = true) by (apply last_of_ring_true; lia).
      congruence. }
    clear Elast.
    destruct Hring as [(Hi' & Htot & HMn)|[(Hi' & Htot & HMn)|(Hi' & Htot)]].
    + assert (Hj1 : j + 1 < minor_seg).
      { destruct Hnl as [H2|?]; [|assumption].
        destruct Hlast as [?|Hne]; [lia|]. lia. }
      rewrite (wrap_below (M + j + 1)) by lia.
      pose proof (wrap_beyond_bound (M + j + minor_seg) ltac:(lia) ltac:(lia)).
      pose proof (wrap_beyond_bound (M + j + minor_seg + 1) ltac:(lia) ltac:(lia)).
      apply NoDup_4; try lia.
      intros Heq. apply wrap_beyond_eq in Heq; lia.
    + destruct (Z.lt_ge_cases (M + j + minor_seg + 1) tot) as [Hlt|Hge].
      * rewrite !wrap_below by lia. apply NoDup_4; lia.
      * rewrite (wrap_below (M + j + minor_seg)), (wrap_below (M + j + 1)) by lia.
        pose proof (wrap_beyond_bound (M + j + minor_seg + 1) ltac:(lia) ltac:(lia)).
        apply NoDup_4; lia.
    + rewrite !wrap_below by lia. apply NoDup_4; lia.
Qed.
End quad_arith.

(** ** Faces *)

Section faces.

Import Generator Mesh.

Variables (major_rad minor_rad : R) (major_seg minor_seg : Z)
          (section_angle : R) (section_twist : Z).

Local Abbreviation add_torus :=
  (Generator.add_torus major_rad minor_rad major_seg minor_seg
     section_angle section_twist).
Local Abbreviation wrap := (Generator.wrap major_seg minor_seg section_twist).
Local Abbreviation quad := (Generator.quad major_seg minor_seg section_twist).
Local Abbreviation tot := (major_seg * minor_seg).

(** A flat index splits into its ring and its minor index. *)
Lemma grid_split (k : Z) :
  0 < minor_seg -> 0 <= k < tot ->
  0 <= k / minor_seg < major_seg /\ 0 <= k mod minor_seg < minor_seg /\
  k = k / minor_seg * minor_seg + k mod minor_seg.
Proof.
  intros Hmin Hk.
  pose proof (Z.mod_pos_bound k minor_seg Hmin) as Hmod.
  pose proof (Z.div_mod k minor_seg ltac:(lia)) as Hdm.
  repeat split; try lia.
  - apply Z.div_pos; lia.
  - apply Z.div_lt_upper_bound; lia.
Qed.

(** The quad of flat index [k], as the mesh stores it. *)
Lemma polygon_vertices_quad :
  0 < major_seg -> 0 < minor_seg ->
  exists verts_loc faces,
    add_torus = Some (verts_loc, faces) /\
    Z.of_nat (length faces) = 4 * tot /\
    forall k, 0 <= k < tot ->
      polygon_vertices (new_mesh verts_loc faces) k =
        Some (quad (k / minor_seg) (k mod minor_seg) k).
Proof.
  intros Hmaj Hmin.
  destruct (add_torus_mesh major_rad minor_rad major_seg minor_seg
              section_angle section_twist Hmaj Hmin)
    as (verts_loc & faces & Heq & _ & Hlen & Hall).
  exists verts_loc, faces. split; [exact Heq|]. split; [exact Hlen|].
  intros k Hk. destruct (grid_split k Hmin Hk) as (Hi & Hj & Hsplit).
  destruct (Hall _ _ Hi Hj) as [_ Hface].
  rewrite <- Hsplit in Hface. exact Hface.
Qed.

(** C1 (amended): for [major_seg >= 3] and [minor_seg >= 2] every face
    the generator emits has four vertex indices, each of them in
    [[0, major_seg * minor_seg)]; the four are pairwise distinct when
    [minor_seg >= 3], and when [minor_seg = 2] for every face but the
    last one. *)
Theorem faces_in_range_distinct :
  3 <= major_seg -> 2 <= minor_seg ->
  exists verts_loc faces,
    add_torus = Some (verts_loc, faces) /\
    forall k, 0 <= k < tot ->
      exists face,
        polygon_vertices (new_mesh verts_loc faces) k = Some face /\
        length face = 4%nat /\
        Forall (fun x => 0 <= x < tot) face /\
        (2 < minor_seg \/ k <> tot - 1 -> NoDup face).
Proof.
  intros Hmaj Hmin.
  destruct polygon_vertices_quad as (verts_loc & faces & Heq & _ & Hall); [lia..|].
  exists verts_loc, faces. split; [exact Heq|]. intros k Hk.
  destruct (grid_split k ltac:(lia) Hk) as (Hi & Hj & Hsplit).
  exists (quad (k / minor_seg) (k mod minor_seg) k).
  split; [apply Hall, Hk|]. split; [apply quad_length|].
  clear Hall. revert Hi Hj Hsplit.
  generalize (k / minor_seg) (k mod minor_seg). intros i j Hi Hj ->. split.
  - apply quad_in_range; lia.
  - intros Hlast. apply quad_nodup; lia.
Qed.

(** C8: face [k] is the 4-tuple [(i1, i3, i4, i2)] with [i1 = k] the
    corner, [i3] its neighbour in the next major ring, [i4] the diagonal
    and [i2] its neighbour in the minor direction; in the mesh, polygon
    [k] starts at loop [4 * k] and has 4 loops, and no polygon has
    another number of loops. *)
Theorem faces_are_quads_i1_i3_i4_i2 :
  3 <= major_seg -> 2 <= minor_seg ->
  exists verts_loc faces,
    add_torus = Some (verts_loc, faces) /\
    let m := new_mesh verts_loc faces in
    Z.of_nat (length (loops_vertex_index m)) = 4 * tot /\
    Z.of_nat (length (polygons m)) = tot /\
    Forall (fun p => loop_total p = 4) (polygons m) /\
    forall k, 0 <= k < tot ->
      let i := k / minor_seg in
      let j := k mod minor_seg in
      let i1 := k in
      let i2 := if last_of_ring minor_seg j then i * minor_seg else i1 + 1 in
      let i3 := i1 + minor_seg in
      let i4 := if last_of_ring minor_seg j then i * minor_seg + minor_seg
                else i3 + 1 in
      getitem (polygons m) k = Some {| loop_start := 4 * k; loop_total := 4 |} /\
      polygon_vertices m k = Some [i1; wrap i3; wrap i4; wrap i2].
Proof.
  intros Hmaj Hmin.
  destruct polygon_vertices_quad as (verts_loc & faces & Heq & Hlen & Hall); [lia..|].
  exists verts_loc, faces. split; [exact Heq|]. cbv zeta.
  split; [exact Hlen|].
  split; [apply (new_mesh_polygons_length _ _ _ Hlen)|].
  split.
  - cbn [new_mesh polygons]. apply Forall_forall. intros p Hp.
    apply list_elem_of_lookup in Hp. destruct Hp as [n Hn].
    rewrite lookup_zip_with in Hn.
    destruct (range_step _ 4 !! n) as [s|]; [|discriminate].
    cbn in Hn. destruct (replicate _ 4 !! n) as [t|] eqn:Et; [|discriminate].
    apply lookup_replicate_1 in Et. destruct Et as [-> _].
    cbn in Hn. injection Hn as <-. reflexivity.
  - intros k Hk. split.
    + apply (new_mesh_polygon _ _ tot); assumption.
    + rewrite (Hall k Hk), quad_eq. reflexivity.
Qed.

End faces.

Lemma faces_in_range_distinct_witness :
  3 <= 3 /\ 2 <= 2 /\
  exists verts_loc faces,
    Generator.add_torus 1 (1 / 4) 3 2 0 0 = Some (verts_loc, faces) /\
    forall k, 0 <= k < 3 * 2 ->
      exists face,
        Mesh.polygon_vertices (Mesh.new_mesh verts_loc faces) k = Some face /\
        length face = 4%nat /\
        Forall (fun x => 0 <= x < 3 * 2) face /\
        (2 < 2 \/ k <> 3 * 2 - 1 -> NoDup face).
Proof.
  split; [lia|]. split; [lia|].
  apply (faces_in_range_distinct 1 (1 / 4) 3 2 0 0); lia.
Defined.

(** With two minor segments the last face of the torus repeats a vertex:
    it is [(5, 1, 0, 0)] for three major segments. *)
Lemma faces_distinct_counterexample :
  3 <= 3 /\ 2 <= 2 /\
  exists verts_loc faces,
    Generator.add_torus 1 (1 / 4) 3 2 0 0 = Some (verts_loc, faces) /\
    Mesh.polygon_vertices (Mesh.new_mesh verts_loc faces) 5 = Some [5; 1; 0; 0] /\
    ~ NoDup [5; 1; 0; 0].
Proof.
  split; [lia|]. split; [lia|].
  destruct (polygon_vertices_quad 1 (1 / 4) 3 2 0 0)
    as (verts_loc & faces & Heq & _ & Hall); [lia..|].
  exists verts_loc, faces. split; [exact Heq|]. split.
  - rewrite (Hall 5) by lia. reflexivity.
  - intros Hnd.
    apply NoDup_cons in Hnd as [_ Hnd]. apply NoDup_cons in Hnd as [_ Hnd].
    apply NoDup_cons in Hnd as [Hin _]. apply Hin. left.
Qed.

Lemma faces_are_quads_i1_i3_i4_i2_witness :
  3 <= 3 /\ 2 <= 4 /\
  exists verts_loc faces,
    Generator.add_torus 1 (1 / 4) 3 4 0 1 = Some (verts_loc, faces) /\
    Z.of_nat (length (Mesh.polygons (Mesh.new_mesh verts_loc faces))) = 3 * 4.
Proof.
  split; [lia|]. split; [lia|].
  destruct (faces_are_quads_i1_i3_i4_i2 1 (1 / 4) 3 4 0 1)
    as (verts_loc & faces & Heq & _ & Hpolys & _); [lia..|].
  exists verts_loc, faces. split; [exact Heq | exact Hpolys].
Defined.

(** ** The twist seam *)

Section seam.

Import Generator Mesh.

Variables (major_rad minor_rad : R) (major_seg minor_seg : Z)
          (section_angle : R) (section_twist : Z).

Local Abbreviation tot := (major_seg * minor_seg).

Lemma wrap_mod_twist (x : Z) :
  minor_seg <> 0 ->
  wrap major_seg minor_seg (section_twist mod minor_seg) x =
  wrap major_seg minor_seg section_twist x.
Proof.
  intros Hmin. unfold wrap. destruct (x >=? tot_verts major_seg minor_seg).
  - apply Z.add_mod_idemp_r. exact Hmin.
  - reflexivity.
Qed.

Lemma quad_mod_twist (i j k : Z) :
  minor_seg <> 0 ->
  quad major_seg minor_seg (section_twist mod minor_seg) i j k =
  quad major_seg minor_seg section_twist i j k.
Proof.
  intros Hmin. rewrite !quad_eq, !wrap_mod_twist by exact Hmin. reflexivity.
Qed.

(** C9: the faces depend on the twist only through its residue modulo
    [minor_seg]: the generator returns the same face list for
    [section_twist] and for [section_twist mod minor_seg]. *)
Theorem faces_depend_on_twist_residue :
  3 <= major_seg -> 2 <= minor_seg -> 0 <= section_twist ->
  exists verts_loc verts_loc' faces,
    add_torus major_rad minor_rad major_seg minor_seg section_angle
      section_twist = Some (verts_loc, faces) /\
    add_torus major_rad minor_rad major_seg minor_seg section_angle
      (section_twist mod minor_seg) = Some (verts_loc', faces).
Proof.
  intros Hmaj Hmin _. eexists _, _, _. split.
  - apply add_torus_eq; lia.
  - rewrite add_torus_eq by lia. f_equal. f_equal.
    apply flat_map_ext. intros k. apply quad_mod_twist. lia.
Qed.

(** Without twist an index beyond the last ring wraps to its own minor
    index, in ring 0. *)
Lemma wrap_untwisted (x : Z) :
  0 < major_seg -> 0 < minor_seg -> tot <= x ->
  wrap major_seg minor_seg 0 x = x mod minor_seg /\
  0 <= wrap major_seg minor_seg 0 x < minor_seg /\
  (x < tot + minor_seg -> wrap major_seg minor_seg 0 x = x - tot).
Proof.
  intros Hmaj Hmin Hx. rewrite wrap_beyond by assumption.
  rewrite Z.add_0_r.
  replace (x - tot) with (x + (- major_seg) * minor_seg) by lia.
  rewrite Z.mod_add by lia.
  split; [reflexivity|]. split; [apply Z.mod_pos_bound; lia|].
  intros Hlt. symmetry. apply Z.mod_unique with (q := major_seg); lia.
Qed.

End seam.

(** C3: in the faces of the generator every neighbour index [i2], [i3],
    [i4] at or beyond [major_seg * minor_seg] is replaced by
    [(index - tot_verts + section_twist) mod minor_seg]; without twist
    such an index goes back to its own minor index in ring 0; and for
    3 major segments, 4 minor segments and twist 1 the wrapped indices
    of the faces of the last ring are those of twist 0 plus 1 modulo 4. *)
Theorem seam_wrap (major_rad minor_rad : R) (major_seg minor_seg : Z)
    (section_angle : R) (section_twist : Z) :
  3 <= major_seg -> 2 <= minor_seg ->
  let tot_verts := major_seg * minor_seg in
  let wrapped x :=
    if x >=? tot_verts then (x - tot_verts + section_twist) mod minor_seg else x in
  (exists verts_loc faces,
     Generator.add_torus major_rad minor_rad major_seg minor_seg section_angle
       section_twist = Some (verts_loc, faces) /\
     forall k, 0 <= k < tot_verts ->
       let last := Generator.last_of_ring minor_seg (k mod minor_seg) in
       let i2 := if last then k / minor_seg * minor_seg else k + 1 in
       let i3 := k + minor_seg in
       let i4 := if last then k / minor_seg * minor_seg + minor_seg else i3 + 1 in
       Mesh.polygon_vertices (Mesh.new_mesh verts_loc faces) k =
         Some [k; wrapped i3; wrapped i4; wrapped i2]) /\
  (forall x, tot_verts <= x ->
     Generator.wrap major_seg minor_seg 0 x = x mod minor_seg /\
     0 <= Generator.wrap major_seg minor_seg 0 x < minor_seg /\
     (x < tot_verts + minor_seg ->
      Generator.wrap major_seg minor_seg 0 x = x - tot_verts)) /\
  (exists verts0 faces0 verts1 faces1,
     Generator.add_torus major_rad minor_rad 3 4 section_angle 0 =
       Some (verts0, faces0) /\
     Generator.add_torus major_rad minor_rad 3 4 section_angle 1 =
       Some (verts1, faces1) /\
     forall j, 0 <= j < 4 ->
       exists i1 i2 i3 i4 i3' i4',
         Mesh.polygon_vertices (Mesh.new_mesh verts0 faces0) (2 * 4 + j) =
           Some [i1; i3; i4; i2] /\
         Mesh.polygon_vertices (Mesh.new_mesh verts1 faces1) (2 * 4 + j) =
           Some [i1; i3'; i4'; i2] /\
         0 <= i3 < 4 /\ 0 <= i4 < 4 /\
         3 * 4 - 4 <= i1 < 3 * 4 /\ 3 * 4 - 4 <= i2 < 3 * 4 /\
         i3' = (i3 + 1) mod 4 /\ i4' = (i4 + 1) mod 4).
Proof.
  intros Hmaj Hmin tot_verts wrapped. split; [|split].
  - destruct (polygon_vertices_quad major_rad minor_rad major_seg minor_seg
                section_angle section_twist)
      as (verts_loc & faces & Heq & _ & Hall); [lia..|].
    exists verts_loc, faces. split; [exact Heq|]. intros k Hk. cbv zeta.
    rewrite (Hall k Hk), quad_eq. reflexivity.
  - intros x Hx. apply wrap_untwisted; [lia|lia|exact Hx].
  - destruct (polygon_vertices_quad major_rad minor_rad 3 4 section_angle 0)
      as (verts0 & faces0 & Heq0 & _ & Hall0); [lia..|].
    destruct (polygon_vertices_quad major_rad minor_rad 3 4 section_angle 1)
      as (verts1 & faces1 & Heq1 & _ & Hall1); [lia..|].
    exists verts0, faces0, verts1, faces1.
    split; [exact Heq0|]. split; [exact Heq1|]. intros j Hj.
    rewrite Hall0, Hall1 by lia.
    assert (Hcases : j = 0 \/ j = 1 \/ j = 2 \/ j = 3) by lia.
    destruct Hcases as [-> | [-> | [-> | ->]]].
    + exists 8, 9, 0, 1, 1, 2. repeat split; reflexivity || lia.
    + exists 9, 10, 1, 2, 2, 3. repeat split; reflexivity || lia.
    + exists 10, 11, 2, 3, 3, 0. repeat split; reflexivity || lia.
    + exists 11, 8, 3, 0, 0, 1. repeat split; reflexivity || lia.
Qed.

Lemma seam_wrap_witness :
  3 <= 3 /\ 2 <= 4 /\
  forall x, 3 * 4 <= x -> Generator.wrap 3 4 0 x = x mod 4.
Proof.
  split; [lia|]. split; [lia|].
  destruct (seam_wrap 1 (1 / 4) 3 4 0 1) as (_ & Hwrap & _); [lia..|].
  intros x Hx. apply (Hwrap x Hx).
Defined.

Lemma faces_depend_on_twist_residue_witness :
  3 <= 3 /\ 2 <= 4 /\ 0 <= 9 /\
  exists verts_loc verts_loc' faces,
    Generator.add_torus 1 (1 / 4) 3 4 0 9 = Some (verts_loc, faces) /\
    Generator.add_torus 1 (1 / 4) 3 4 0 (9 mod 4) = Some (verts_loc', faces).
Proof.
  split; [lia|]. split; [lia|]. split; [lia|].
  apply (faces_depend_on_twist_residue 1 (1 / 4) 3 4 0 9); lia.
Defined.

(** ** Vertices *)

Section vertices.

Import Generator Mesh Geometry.

Variables (major_rad minor_rad : R) (major_seg minor_seg : Z)
          (section_angle : R) (section_twist : Z).

Local Abbreviation add_torus :=
  (Generator.add_torus major_rad minor_rad major_seg minor_seg
     section_angle section_twist).
Local Abbreviation vertex :=
  (Generator.vertex major_rad minor_rad major_seg minor_seg
     section_angle section_twist).
Local Abbreviation tot := (major_seg * minor_seg).

(** C5: for [major_seg >= 3] and [minor_seg >= 2] the generator returns
    [major_seg * minor_seg] vertices of three coordinates each and as
    many quads of four indices each, and the vertex of ring
    [major_index] and minor index [minor_index] is the one at flat
    position [major_index * minor_seg + minor_index]. *)
Theorem vertex_and_face_counts :
  3 <= major_seg -> 2 <= minor_seg ->
  exists verts_loc faces,
    add_torus = Some (verts_loc, faces) /\
    let m := new_mesh verts_loc faces in
    Z.of_nat (length verts_loc) = 3 * tot /\
    n_vertices m = tot /\
    Z.of_nat (length faces) = 4 * tot /\
    Z.of_nat (length (polygons m)) = tot /\
    forall major_index minor_index,
      0 <= major_index < major_seg -> 0 <= minor_index < minor_seg ->
      vertex_at (vertices_co m) (major_index * minor_seg + minor_index) =
        Some (vertex major_index minor_index).
Proof.
  intros Hmaj Hmin.
  destruct (add_torus_mesh major_rad minor_rad major_seg minor_seg
              section_angle section_twist)
    as (verts_loc & faces & Heq & Hv & Hf & Hall); [lia..|].
  exists verts_loc, faces. split; [exact Heq|]. cbv zeta.
  split; [exact Hv|]. split; [|split; [exact Hf|split]].
  - cbn [new_mesh n_vertices]. rewrite Hv. symmetry.
    apply Z.div_unique_exact; lia.
  - apply (new_mesh_polygons_length _ _ _ Hf).
  - intros i j Hi Hj. apply (Hall i j Hi Hj).
Qed.

(** The vector of the source, as a rotation about the Z axis. *)
Lemma vertex_rotate_z (i j : Z) :
  major_seg <> 0 ->
  let twist_step_angle :=
    (2 * PI / IZR minor_seg / IZR major_seg * IZR section_twist)%R in
  let theta :=
    (2 * PI * IZR j / IZR minor_seg + section_angle
     + IZR i * twist_step_angle)%R in
  vertex i j =
  rotate_z (2 * PI * IZR i / IZR major_seg)
    (major_rad + minor_rad * cos theta, 0, minor_rad * sin theta)%R.
Proof.
  intros Hmaj. cbv zeta.
  unfold Generator.vertex, Generator.twist_step_angle, matmul, Rotation_Z,
    dot, rotate_z, pi_2.
  replace (IZR i / IZR major_seg * (PI * 2))%R
    with (2 * PI * IZR i / IZR major_seg)%R
    by (field; apply not_0_IZR; exact Hmaj).
  replace (PI * 2 * IZR j / IZR minor_seg + section_angle +
           IZR i * (PI * 2 / IZR minor_seg / IZR major_seg * IZR section_twist))%R
    with (2 * PI * IZR j / IZR minor_seg + section_angle +
          IZR i * (2 * PI / IZR minor_seg / IZR major_seg * IZR section_twist))%R
    by (rewrite (Rmult_comm PI 2); reflexivity).
  f_equal; [f_equal|]; ring.
Qed.

(** C2: for [major_seg >= 3] and [minor_seg >= 2] the vertex of ring [i]
    and minor index [j] is the point
    [(major_rad + minor_rad * cos theta, 0, minor_rad * sin theta)]
    rotated about the Z axis by [2 * PI * i / major_seg], where
    [theta = 2 * PI * j / minor_seg + section_angle + i * twist_step_angle]
    and [twist_step_angle = (2 * PI / minor_seg / major_seg) * section_twist];
    the vertices come ring after ring, vertex [(i, j)] at position
    [i * minor_seg + j]. *)
Theorem vertex_placement :
  3 <= major_seg -> 2 <= minor_seg ->
  exists verts_loc faces,
    add_torus = Some (verts_loc, faces) /\
    Z.of_nat (length verts_loc) = 3 * tot /\
    forall i j, 0 <= i < major_seg -> 0 <= j < minor_seg ->
      let twist_step_angle :=
        (2 * PI / IZR minor_seg / IZR major_seg * IZR section_twist)%R in
      let theta :=
        (2 * PI * IZR j / IZR minor_seg + section_angle
         + IZR i * twist_step_angle)%R in
      vertex_at verts_loc (i * minor_seg + j) =
        Some (rotate_z (2 * PI * IZR i / IZR major_seg)
                (major_rad + minor_rad * cos theta, 0,
                 minor_rad * sin theta)%R).
Proof.
  intros Hmaj Hmin.
  destruct (add_torus_mesh major_rad minor_rad major_seg minor_seg
              section_angle section_twist)
    as (verts_loc & faces & Heq & Hv & _ & Hall); [lia..|].
  exists verts_loc, faces. split; [exact Heq|]. split; [exact Hv|].
  intros i j Hi Hj. cbv zeta.
  destruct (Hall i j Hi Hj) as [Hvertex _]. rewrite Hvertex. f_equal.
  apply vertex_rotate_z. lia.
Qed.

End vertices.

Lemma vertex_and_face_counts_witness :
  3 <= 4 /\ 2 <= 4 /\
  exists verts_loc faces,
    Generator.add_torus 1 (1 / 4) 4 4 0 0 = Some (verts_loc, faces) /\
    Z.of_nat (length verts_loc) = 3 * (4 * 4) /\
    Mesh.n_vertices (Mesh.new_mesh verts_loc faces) = 4 * 4 /\
    Z.of_nat (length faces) = 4 * (4 * 4) /\
    Z.of_nat (length (Mesh.polygons (Mesh.new_mesh verts_loc faces))) = 4 * 4.
Proof.
  split; [lia|]. split; [lia|].
  destruct (vertex_and_face_counts 1 (1 / 4) 4 4 0 0)
    as (verts_loc & faces & Heq & Hv & Hn & Hf & Hp & _); [lia..|].
  exists verts_loc, faces. repeat split; assumption.
Defined.

Lemma vertex_placement_witness :
  3 <= 4 /\ 2 <= 4 /\
  exists verts_loc faces,
    Generator.add_torus 1 (1 / 4) 4 4 0 1 = Some (verts_loc, faces) /\
    Z.of_nat (length verts_loc) = 3 * (4 * 4).
Proof.
  split; [lia|]. split; [lia|].
  destruct (vertex_placement 1 (1 / 4) 4 4 0 1)
    as (verts_loc & faces & Heq & Hv & _); [lia..|].
  exists verts_loc, faces. split; assumption.
Defined.

(** ** Distance to the ring centre *)

Section ring_distance.

Import Generator Mesh Geometry.

Lemma distance_on_circle (major_rad minor_rad a theta : R) :
  (0 <= minor_rad)%R ->
  distance
    (rotate_z a (major_rad + minor_rad * cos theta, 0, minor_rad * sin theta)%R)
    (rotate_z a (major_rad, 0, 0)%R) = minor_rad.
Proof.
  intros Hr. unfold distance, rotate_z.
  pose proof (sin2_cos2 a) as Ha. pose proof (sin2_cos2 theta) as Ht.
  unfold Rsqr in Ha, Ht.
  generalize dependent (cos a). generalize dependent (sin a).
  generalize dependent (cos theta). generalize dependent (sin theta).
  intros st ct Ht sa ca Ha.
  match goal with
  | |- sqrt ?e = _ =>
      replace e with
        (minor_rad * minor_rad *
         (ct * ct * (sa * sa + ca * ca) + st * st))%R by ring
  end.
  rewrite Ha, Rmult_1_r, (Rplus_comm (ct * ct)), Ht, Rmult_1_r.
  apply sqrt_square. exact Hr.
Qed.

(** C6: without twist, for [major_seg >= 3], [minor_seg >= 2] and a
    minor radius that is not negative, every vertex is at distance
    [minor_rad] from the centre of its ring, the point [(major_rad, 0, 0)]
    rotated about the Z axis by the angle of the ring. *)
Theorem vertex_distance_to_ring_centre
    (major_rad minor_rad : R) (major_seg minor_seg : Z) (section_angle : R) :
  3 <= major_seg -> 2 <= minor_seg -> (0 <= minor_rad)%R ->
  exists verts_loc faces,
    add_torus major_rad minor_rad major_seg minor_seg section_angle 0 =
      Some (verts_loc, faces) /\
    forall i j, 0 <= i < major_seg -> 0 <= j < minor_seg ->
      exists v,
        vertex_at verts_loc (i * minor_seg + j) = Some v /\
        distance v
          (rotate_z (2 * PI * IZR i / IZR major_seg) (major_rad, 0, 0)%R) =
        minor_rad.
Proof.
  intros Hmaj Hmin Hr.
  destruct (add_torus_mesh major_rad minor_rad major_seg minor_seg
              section_angle 0)
    as (verts_loc & faces & Heq & _ & _ & Hall); [lia..|].
  exists verts_loc, faces. split; [exact Heq|]. intros i j Hi Hj.
  destruct (Hall i j Hi Hj) as [Hvertex _].
  eexists. split; [exact Hvertex|].
  rewrite vertex_rotate_z by lia. cbv zeta.
  apply distance_on_circle. exact Hr.
Qed.

End ring_distance.

Lemma vertex_distance_to_ring_centre_witness :
  3 <= 4 /\ 2 <= 4 /\ (0 <= 1 / 4)%R /\
  exists verts_loc faces,
    Generator.add_torus 1 (1 / 4) 4 4 0 0 = Some (verts_loc, faces) /\
    forall i j, 0 <= i < 4 -> 0 <= j < 4 ->
      exists v,
        Mesh.vertex_at verts_loc (i * 4 + j) = Some v /\
        Geometry.distance v
          (Geometry.rotate_z (2 * PI * IZR i / IZR 4) (1, 0, 0)%R) = (1 / 4)%R.
Proof.
  split; [lia|]. split; [lia|]. split; [lra|].
  apply (vertex_distance_to_ring_centre 1 (1 / 4) 4 4 0); [lia|lia|lra].
Defined.

(** ** Radii *)

(** Every case of the clamps of a goal or hypothesis. *)
Ltac clamp_cases :=
  unfold Operator.clamp_radius, Operator.radius_min, Operator.radius_max in *;
  repeat match goal with
  | |- context [Rlt_dec ?x ?y] => destruct (Rlt_dec x y)
  | H : context [Rlt_dec ?x ?y] |- _ => destruct (Rlt_dec x y)
  end.

Section radii.

Import Operator.
Local Open Scope R_scope.

(** C10, as the code has it: the conversion of [execute] from the
    exterior and interior radius to the major and minor radius and the
    conversion of [mode_update_callback] the other way round are inverse
    to each other on the radii the properties can hold without clamping.
    For a major and minor radius with [0 <= minor <= major] and
    [major + minor <= 10000] the callback stores their sum and
    difference and the conversion of [execute] gives the two radii back;
    for an exterior and interior radius with
    [0 <= interior <= exterior <= 10000] the conversion of [execute]
    stores [interior + (exterior - interior) / 2] and
    [(exterior - interior) / 2] and the callback gives the two radii
    back.  For radii within [0, 10000] these are the only cases in which
    the pair comes back. *)
Theorem radius_conversions_inverse (self : AddTorus) :
  (0 <= minor_radius self <= major_radius self ->
   major_radius self + minor_radius self <= 10000 ->
   (mode self = EXT_INT ->
    abso_major_rad (mode_update_callback self) =
      major_radius self + minor_radius self /\
    abso_minor_rad (mode_update_callback self) =
      major_radius self - minor_radius self) /\
   major_radius (update_radii (mode_update_callback self)) = major_radius self /\
   minor_radius (update_radii (mode_update_callback self)) = minor_radius self) /\
  (0 <= abso_minor_rad self <= abso_major_rad self ->
   abso_major_rad self <= 10000 ->
   (mode self = EXT_INT ->
    major_radius (update_radii self) =
      abso_minor_rad self + (abso_major_rad self - abso_minor_rad self) / 2 /\
    minor_radius (update_radii self) =
      (abso_major_rad self - abso_minor_rad self) / 2) /\
   abso_major_rad (mode_update_callback (update_radii self)) = abso_major_rad self /\
   abso_minor_rad (mode_update_callback (update_radii self)) = abso_minor_rad self) /\
  (mode self = EXT_INT ->
   0 <= major_radius self <= 10000 -> 0 <= minor_radius self <= 10000 ->
   major_radius (update_radii (mode_update_callback self)) = major_radius self ->
   minor_radius (update_radii (mode_update_callback self)) = minor_radius self ->
   minor_radius self <= major_radius self /\
   major_radius self + minor_radius self <= 10000) /\
  (mode self = EXT_INT ->
   0 <= abso_major_rad self <= 10000 -> 0 <= abso_minor_rad self <= 10000 ->
   abso_major_rad (mode_update_callback (update_radii self)) = abso_major_rad self ->
   abso_minor_rad (mode_update_callback (update_radii self)) = abso_minor_rad self ->
   abso_minor_rad self <= abso_major_rad self).
Proof.
  unfold update_radii, mode_update_callback.
  destruct self as [mj mn sa tw [|] M m E I uv]; cbn.
  - repeat split; try reflexivity; intros; discriminate.
  - split; [|split; [|split]].
    + intros Hm HM. split; [intros _|]; clamp_cases; repeat split; lra.
    + intros HI HE. split; [intros _|]; clamp_cases; repeat split; lra.
    + intros _ HM Hm. clamp_cases; intros H1 H2; split; lra.
    + intros _ HE HI. clamp_cases; intros H1 H2; lra.
Qed.

End radii.

Lemma radius_conversions_inverse_witness :
  let self :=
    {| Operator.major_segments := 48; Operator.minor_segments := 12;
       Operator.section_angle := 0; Operator.section_twist := 0;
       Operator.mode := Operator.EXT_INT;
       Operator.major_radius := 1; Operator.minor_radius := 1 / 4;
       Operator.abso_major_rad := 3; Operator.abso_minor_rad := 1;
       Operator.generate_uvs := true |} in
  ((0 <= 1 / 4 <= 1)%R /\ (1 + 1 / 4 <= 10000)%R /\
   Operator.major_radius
     (Operator.update_radii (Operator.mode_update_callback self)) = 1%R /\
   Operator.minor_radius
     (Operator.update_radii (Operator.mode_update_callback self)) = (1 / 4)%R) /\
  ((0 <= 1 <= 3)%R /\ (3 <= 10000)%R /\
   Operator.major_radius (Operator.update_radii self) = (1 + (3 - 1) / 2)%R /\
   Operator.abso_major_rad
     (Operator.mode_update_callback (Operator.update_radii self)) = 3%R /\
   Operator.abso_minor_rad
     (Operator.mode_update_callback (Operator.update_radii self)) = 1%R).
Proof.
  intros self.
  destruct (radius_conversions_inverse self) as (Hfrom & Hto & _).
  split.
  - assert (Hm : (0 <= 1 / 4 <= 1)%R) by lra.
    assert (HM : (1 + 1 / 4 <= 10000)%R) by lra.
    destruct (Hfrom Hm HM) as (_ & Hmajor & Hminor).
    repeat split; try lra; [exact Hmajor | exact Hminor].
  - assert (HI : (0 <= 1 <= 3)%R) by lra.
    assert (HE : (3 <= 10000)%R) by lra.
    destruct (Hto HI HE) as (Hconv & Hext & Hint).
    destruct (Hconv eq_refl) as [Hmajor _].
    repeat split; try lra; [exact Hmajor | exact Hext | exact Hint].
Defined.

(** The claim for all real radii fails where a property clamps: from a
    major radius 1 and a minor radius 2 the callback stores the exterior
    radius 3 and the interior radius 0, not -1, and the conversion of
    [execute] then gives the radii 3/2 and 3/2. *)
Lemma radius_conversions_counterexample :
  let self :=
    {| Operator.major_segments := 48; Operator.minor_segments := 12;
       Operator.section_angle := 0; Operator.section_twist := 0;
       Operator.mode := Operator.EXT_INT;
       Operator.major_radius := 1; Operator.minor_radius := 2;
       Operator.abso_major_rad := 5 / 4; Operator.abso_minor_rad := 3 / 4;
       Operator.generate_uvs := true |} in
  Operator.abso_major_rad (Operator.mode_update_callback self) = 3%R /\
  Operator.abso_minor_rad (Operator.mode_update_callback self) = 0%R /\
  Operator.abso_minor_rad (Operator.mode_update_callback self) <>
    (Operator.major_radius self - Operator.minor_radius self)%R /\
  Operator.major_radius
    (Operator.update_radii (Operator.mode_update_callback self)) = (3 / 2)%R /\
  Operator.minor_radius
    (Operator.update_radii (Operator.mode_update_callback self)) = (3 / 2)%R /\
  ~ (Operator.major_radius
       (Operator.update_radii (Operator.mode_update_callback self)) =
       Operator.major_radius self /\
     Operator.minor_radius
       (Operator.update_radii (Operator.mode_update_callback self)) =
       Operator.minor_radius self).
Proof.
  intros self. unfold self, Operator.update_radii, Operator.mode_update_callback.
  cbn. clamp_cases; repeat split; try lra; intros [H1 H2]; lra.
Qed.

(** ** UV corners *)

Section uv_corners.

Import Generator Mesh UV.

(** The faces of [add_torus], with the coordinates kept abstract. *)
Lemma add_torus_faces (major_rad minor_rad : R) (major_seg minor_seg : Z)
    (section_angle : R) (section_twist : Z) :
  0 < major_seg -> 0 < minor_seg ->
  exists verts_loc,
    add_torus major_rad minor_rad major_seg minor_seg section_angle
      section_twist =
    Some (verts_loc,
          flat_map
            (fun k => quad major_seg minor_seg section_twist
                        (k / minor_seg) (k mod minor_seg) k)
            (range (major_seg * minor_seg))).
Proof. intros Hmaj Hmin. eexists. apply add_torus_eq; assumption. Qed.

(** C7: for 4 major and 4 minor segments the grid mapper gives the
    first face the UV corners (0.5, 0.5), (0.75, 0.5), (0.5, 0.75) and
    (0.75, 0.75): [(u, v)] on the loop of [i1], [(u + step, v)] on the
    loop of [i3], [(u, v + step)] on the loop of [i2] and
    [(u + step, v + step)] on the loop of [i4].  This holds in exact
    arithmetic and in binary64 arithmetic alike. *)
Theorem grid_uv_first_face
    (major_rad minor_rad section_angle : R) (section_twist : Z) :
  exists verts_loc faces uv_exact uv_b64,
    add_torus major_rad minor_rad 4 4 section_angle section_twist =
      Some (verts_loc, faces) /\
    let m := new_mesh verts_loc faces in
    let half := Binary64.dyadic 1 (-1) in
    let three_quarters := Binary64.dyadic 3 (-2) in
    add_uvs (H := Exact.float_Q) m 4 4 = Some uv_exact /\
    add_uvs (H := Binary64.float_b64) m 4 4 = Some uv_b64 /\
    loop_indices <$> getitem (polygons m) 0 = Some [0; 1; 2; 3] /\
    polygon_vertices m 0 = Some [0; 4; 5; 1] /\
    uv_exact !! 0%nat = Some (Some (1 # 2, 1 # 2)%Q) /\
    uv_exact !! 1%nat = Some (Some (3 # 4, 1 # 2)%Q) /\
    uv_exact !! 3%nat = Some (Some (1 # 2, 3 # 4)%Q) /\
    uv_exact !! 2%nat = Some (Some (3 # 4, 3 # 4)%Q) /\
    uv_b64 !! 0%nat = Some (Some (half, half)) /\
    uv_b64 !! 1%nat = Some (Some (three_quarters, half)) /\
    uv_b64 !! 3%nat = Some (Some (half, three_quarters)) /\
    uv_b64 !! 2%nat = Some (Some (three_quarters, three_quarters)).
Proof.
  destruct (add_torus_faces major_rad minor_rad 4 4 section_angle
              section_twist) as [verts_loc Heq]; [lia..|].
  eexists verts_loc, _. cbv zeta.
  match goal with
  | |- exists uv_exact uv_b64, _ /\ ?rest =>
      enough (Hgoal : exists uv_exact uv_b64 : _, rest) by
        (destruct Hgoal as (uq & ub & Hrest); exists uq, ub;
         split; [exact Heq | exact Hrest])
  end.
  vm_compute. eexists _, _. repeat split; reflexivity.
Qed.

(** C4 at [major_seg = 3], [minor_seg = 4], [section_twist = 2], where
    the twist is not a multiple of [minor_seg]: the ribbon mapper visits
    the tracks 0, 2, 0, 2, so that the faces of the tracks 1 and 3 (half
    of the loops) are never written and face 0, written twice, ends
    with U from 1/2 to 7/12 and not from 0 to 1/12. *)
Theorem ribbon_uv_skips_faces (major_rad minor_rad section_angle : R) :
  exists verts_loc faces uv,
    add_torus major_rad minor_rad 3 4 section_angle 2 =
      Some (verts_loc, faces) /\
    let m := new_mesh verts_loc faces in
    2 mod 4 <> 0 /\
    add_uvs_one_ribbon (H := Exact.float_Q) m 4 3 2 = Some uv /\
    map (fun offset => (offset * 2) mod 4) (range 4) = [0; 2; 0; 2] /\
    loop_indices <$> getitem (polygons m) 1 = Some [4; 5; 6; 7] /\
    uv !! 4%nat = Some None /\ uv !! 5%nat = Some None /\
    uv !! 6%nat = Some None /\ uv !! 7%nat = Some None /\
    length uv = 48%nat /\
    length (filter (fun c => c = None) uv) = 24%nat /\
    uv !! 0%nat = Some (Some (1 # 2, 0)%Q) /\
    uv !! 1%nat = Some (Some (7 # 12, 0)%Q).
Proof.
  destruct (add_torus_faces major_rad minor_rad 3 4 section_angle 2)
    as [verts_loc Heq]; [lia..|].
  eexists verts_loc, _. cbv zeta.
  match goal with
  | |- exists uv, _ /\ ?rest =>
      enough (Hgoal : exists uv : _, rest) by
        (destruct Hgoal as (uv & Hrest); exists uv;
         split; [exact Heq | exact Hrest])
  end.
  vm_compute. eexists. repeat split; try reflexivity. discriminate.
Qed.

End uv_corners.

(** ** The ribbon mapper on a twist coprime to the minor segments *)

Section mapper_facts.
Import Mesh UV.
Context {T : Type} `{Float T}.

Lemma for_each_try_range {St : Type} (body : St -> Z -> option St)
    (I : Z -> St -> Prop) (n : nat) (st : St) :
  I 0 st ->
  (forall k s, 0 <= k < Z.of_nat n -> I k s ->
     exists s', body s k = Some s' /\ I (k + 1) s') ->
  exists s', for_each_try (range (Z.of_nat n)) body st = Some s' /\ I (Z.of_nat n) s'.
Proof.
  intros H0 Hstep. unfold for_each_try. induction n as [|n IH].
  - exists st. split; [reflexivity | exact H0].
  - destruct IH as (s & Hs & HI).
    { intros k s Hk. apply Hstep. lia. }
    rewrite range_succ, fold_left_app, Hs. cbn [fold_left mbind option_bind].
    destruct (Hstep (Z.of_nat n) s ltac:(lia) HI) as (s' & Hs' & HI').
    exists s'. split; [exact Hs'|].
    replace (Z.of_nat (S n)) with (Z.of_nat n + 1) by lia. exact HI'.
Qed.

Lemma set_uv_spec (uv_data : uv_layer T) (i : Z) (uv : T * T) :
  0 <= i < Z.of_nat (length uv_data) ->
  set_uv uv_data i uv = Some (<[Z.to_nat i := Some uv]> uv_data).
Proof.
  intros Hi. unfold set_uv. rewrite index_of_in_range by exact Hi. reflexivity.
Qed.

(** The four assignments on the loops of polygon [f]. *)
Lemma set_corners_spec (uv_data : uv_layer T) (f : Z) (uv0 uv1 uv3 uv2 : T * T) :
  0 <= f -> 4 * f + 3 < Z.of_nat (length uv_data) ->
  exists uv_data',
    set_corners uv_data (loop_indices {| loop_start := 4 * f; loop_total := 4 |})
      uv0 uv1 uv3 uv2 = Some uv_data' /\
    length uv_data' = length uv_data /\
    uv_data' !! Z.to_nat (4 * f) = Some (Some uv0) /\
    uv_data' !! Z.to_nat (4 * f + 1) = Some (Some uv1) /\
    uv_data' !! Z.to_nat (4 * f + 3) = Some (Some uv3) /\
    uv_data' !! Z.to_nat (4 * f + 2) = Some (Some uv2) /\
    forall l, (l < Z.to_nat (4 * f) \/ Z.to_nat (4 * f + 3) < l)%nat ->
      uv_data' !! l = uv_data !! l.
Proof.
  intros Hf Hlen.
  change (loop_indices {| loop_start := 4 * f; loop_total := 4 |})
    with [4 * f + 0; 4 * f + 1; 4 * f + 2; 4 * f + 3].
  set (loops := [4 * f + 0; 4 * f + 1; 4 * f + 2; 4 * f + 3]).
  assert (H0 : getitem loops 0 = Some (4 * f + 0)) by reflexivity.
  assert (H1 : getitem loops 1 = Some (4 * f + 1)) by reflexivity.
  assert (H2 : getitem loops 2 = Some (4 * f + 2)) by reflexivity.
  assert (H3 : getitem loops 3 = Some (4 * f + 3)) by reflexivity.
  unfold set_corners.
  rewrite H0. cbn [mbind option_bind].
  rewrite set_uv_spec by lia. cbn [mbind option_bind].
  rewrite H1. cbn [mbind option_bind].
  rewrite set_uv_spec by (rewrite length_insert; lia). cbn [mbind option_bind].
  rewrite H3. cbn [mbind option_bind].
  rewrite set_uv_spec by (rewrite !length_insert; lia). cbn [mbind option_bind].
  rewrite H2. cbn [mbind option_bind].
  rewrite set_uv_spec by (rewrite !length_insert; lia).
  rewrite Z.add_0_r.
  eexists. split; [reflexivity|].
  rewrite !length_insert. split; [reflexivity|].
  repeat split.
  - rewrite !list_lookup_insert_ne by lia. apply list_lookup_insert_eq. lia.
  - rewrite !list_lookup_insert_ne by lia. apply list_lookup_insert_eq.
    rewrite length_insert. lia.
  - rewrite !list_lookup_insert_ne by lia. apply list_lookup_insert_eq.
    rewrite !length_insert. lia.
  - apply list_lookup_insert_eq. rewrite !length_insert. lia.
  - intros l Hl. rewrite !list_lookup_insert_ne by lia. reflexivity.
Qed.

End mapper_facts.

Section ribbon_faces.

Variables (minor_seg major_seg section_twist : Z).
Hypothesis (Hmin : 0 < minor_seg) (Hmaj : 0 < major_seg).

Local Abbreviation face := (ribbon_face minor_seg major_seg section_twist).
Local Abbreviation count := (major_seg * minor_seg).

Lemma ribbon_time_split (t : Z) :
  0 <= t < count ->
  0 <= t / major_seg < minor_seg /\ 0 <= t mod major_seg < major_seg /\
  t = t / major_seg * major_seg + t mod major_seg.
Proof.
  intros Ht.
  pose proof (Z.mod_pos_bound t major_seg Hmaj) as Hmod.
  pose proof (Z.div_mod t major_seg ltac:(lia)) as Hdm.
  repeat split; try lia.
  - apply Z.div_pos; lia.
  - apply Z.div_lt_upper_bound; lia.
Qed.

Lemma ribbon_face_offset (offset idx : Z) :
  0 <= idx < major_seg ->
  face (offset * major_seg + idx) =
  idx * minor_seg + (offset * section_twist) mod minor_seg.
Proof.
  intros Hidx. unfold ribbon_face.
  replace ((offset * major_seg + idx) mod major_seg) with idx
    by (apply (Z.mod_unique _ _ offset); lia).
  replace ((offset * major_seg + idx) / major_seg) with offset
    by (apply (Z.div_unique _ _ _ idx); lia).
  reflexivity.
Qed.

Lemma ribbon_face_range (t : Z) : 0 <= t < count -> 0 <= face t < count.
Proof.
  intros Ht. destruct (ribbon_time_split t Ht) as (Ho & Hi & _).
  unfold ribbon_face.
  pose proof (Z.mod_pos_bound (t / major_seg * section_twist) minor_seg Hmin).
  nia.
Qed.

Lemma ribbon_face_inj (s t : Z) :
  Z.gcd section_twist minor_seg = 1 ->
  0 <= s < count -> 0 <= t < count -> face s = face t -> s = t.
Proof.
  intros Hgcd Hs Ht Heq.
  destruct (ribbon_time_split s Hs) as (Hso & Hsi & Hsplit).
  destruct (ribbon_time_split t Ht) as (Hto & Hti & Htsplit).
  unfold ribbon_face in Heq.
  pose proof (Z.mod_pos_bound (s / major_seg * section_twist) minor_seg Hmin) as Hsr.
  pose proof (Z.mod_pos_bound (t / major_seg * section_twist) minor_seg Hmin) as Htr.
  assert (Hidx : s mod major_seg = t mod major_seg) by nia.
  assert (Hoff : (s / major_seg * section_twist) mod minor_seg =
                 (t / major_seg * section_twist) mod minor_seg) by nia.
  apply mod_eq_multiple in Hoff. destruct Hoff as [q Hq].
  assert (Hdiv : (minor_seg | (s / major_seg - t / major_seg) * section_twist)).
  { exists q. lia. }
  rewrite Z.mul_comm in Hdiv.
  apply Z.gauss in Hdiv; [|rewrite Z.gcd_comm; exact Hgcd].
  destruct Hdiv as [r Hr].
  assert (r = 0) by nia. nia.
Qed.

Lemma ribbon_face_surj (f : Z) :
  Z.gcd section_twist minor_seg = 1 ->
  0 <= f < count ->
  exists offset idx, 0 <= offset < minor_seg /\ 0 <= idx < major_seg /\
    f = idx * minor_seg + (offset * section_twist) mod minor_seg.
Proof.
  intros Hgcd Hf.
  destruct (Z.gcd_bezout _ _ _ Hgcd) as (a & b & Hab).
  pose proof (Z.mod_pos_bound f minor_seg Hmin) as Hr.
  pose proof (Z.div_mod f minor_seg ltac:(lia)) as Hdm.
  exists ((f mod minor_seg * a) mod minor_seg), (f / minor_seg).
  split; [apply Z.mod_pos_bound; exact Hmin|].
  split; [split; [apply Z.div_pos; lia | apply Z.div_lt_upper_bound; lia]|].
  rewrite Z.mul_mod_idemp_l by lia.
  replace (f mod minor_seg * a * section_twist)
    with (f mod minor_seg + (- (f mod minor_seg) * b) * minor_seg) by nia.
  rewrite Z.mod_add by lia. rewrite Z.mod_mod by lia. lia.
Qed.

End ribbon_faces.

Section ribbon_loops.

Import Mesh UV.
Context {T : Type} `{Float T}.

Variables (m : mesh) (minor_seg major_seg section_twist : Z) (u_step : T).
Hypothesis (Hmin : 0 < minor_seg) (Hmaj : 0 < major_seg).
Hypothesis Hgcd : Z.gcd section_twist minor_seg = 1.
Hypothesis Hpolygons : forall k, 0 <= k < major_seg * minor_seg ->
  getitem (polygons m) k = Some {| loop_start := 4 * k; loop_total := 4 |}.

Local Abbreviation face := (ribbon_face minor_seg major_seg section_twist).
Local Abbreviation count := (major_seg * minor_seg).
Local Abbreviation inv := (ribbon_inv minor_seg major_seg section_twist u_step).

(** One step of the inner loop paints the face of its time and keeps
    the faces painted before. *)
Lemma ribbon_major_step_inv (offset idx : Z) (st : ribbon_state) :
  0 <= offset < minor_seg -> 0 <= idx < major_seg ->
  inv (offset * major_seg + idx) st ->
  exists st',
    ribbon_major_step m minor_seg u_step
      ((offset * section_twist) mod minor_seg) st idx = Some st' /\
    inv (offset * major_seg + idx + 1) st'.
Proof.
  intros Ho Hi (Hlen & Hu & Hpainted).
  set (t := offset * major_seg + idx) in *.
  assert (Ht : 0 <= t < count) by (unfold t; nia).
  pose proof (ribbon_face_range minor_seg major_seg section_twist Hmin Hmaj t Ht)
    as Hf.
  unfold ribbon_major_step.
  rewrite <- (ribbon_face_offset minor_seg major_seg section_twist offset idx Hi).
  fold t. rewrite (Hpolygons _ Hf). cbn [mbind option_bind].
  destruct (set_corners_spec (r_uv_data st) (face t)
              (r_u_next st, lit_0_0) (add (r_u_next st) u_step, lit_0_0)
              (r_u_next st, lit_1_0) (add (r_u_next st) u_step, lit_1_0))
    as (uv' & Hset & Hlen' & L0 & L1 & L3 & L2 & Hother); [lia..|].
  rewrite Hset. cbn [mbind option_bind].
  eexists. split; [reflexivity|].
  assert (Hnext : add (r_u_next st) u_step = ribbon_u u_step (Z.to_nat (t + 1))).
  { rewrite Hu. replace (Z.to_nat (t + 1)) with (S (Z.to_nat t)) by lia.
    reflexivity. }
  split; [|split]; cbn [r_uv_data r_u_next].
  - rewrite Hlen'. exact Hlen.
  - exact Hnext.
  - intros s Hs. unfold ribbon_painted. cbv zeta.
    destruct (Z.eq_dec s t) as [->|Hne].
    + rewrite <- Hnext, <- Hu. repeat split; assumption.
    + assert (Hlt : 0 <= s < t) by lia.
      assert (Hsc : 0 <= s < count) by lia.
      pose proof (ribbon_face_range minor_seg major_seg section_twist
                    Hmin Hmaj s Hsc) as Hfs.
      assert (Hfne : face s <> face t).
      { intros Heq.
        apply (ribbon_face_inj minor_seg major_seg section_twist Hmin Hmaj)
          in Heq; [lia|assumption..]. }
      destruct (Hpainted s Hlt) as (P0 & P1 & P3 & P2).
      rewrite !Hother by lia. repeat split; assumption.
Qed.

(** One step of the outer loop: a whole track. *)
Lemma ribbon_offset_step_inv (offset : Z) (st : ribbon_state) :
  0 <= offset < minor_seg ->
  inv (offset * major_seg) st ->
  exists st',
    ribbon_offset_step m minor_seg major_seg section_twist u_step st offset =
      Some st' /\
    inv ((offset + 1) * major_seg) st'.
Proof.
  intros Ho Hinv. unfold ribbon_offset_step.
  replace (range major_seg) with (range (Z.of_nat (Z.to_nat major_seg)))
    by (f_equal; lia).
  destruct (for_each_try_range
              (ribbon_major_step m minor_seg u_step
                 ((offset * section_twist) mod minor_seg))
              (fun idx => inv (offset * major_seg + idx))
              (Z.to_nat major_seg) st) as (st' & Hrun & Hinv').
  - rewrite Z.add_0_r. exact Hinv.
  - intros idx s Hidx Hs.
    destruct (ribbon_major_step_inv offset idx s Ho ltac:(lia) Hs)
      as (s' & Hstep & Hs').
    exists s'. split; [exact Hstep|].
    replace (offset * major_seg + (idx + 1))
      with (offset * major_seg + idx + 1) by lia.
    exact Hs'.
  - exists st'. split; [exact Hrun|].
    replace ((offset + 1) * major_seg)
      with (offset * major_seg + Z.of_nat (Z.to_nat major_seg)) by lia.
    exact Hinv'.
Qed.

(** The two loops of the ribbon mapper, from an unwritten layer. *)
Lemma ribbon_loops_inv (uv_data : uv_layer T) :
  Z.of_nat (length uv_data) = 4 * count ->
  exists st',
    for_each_try (range minor_seg)
      (ribbon_offset_step m minor_seg major_seg section_twist u_step)
      {| r_uv_data := uv_data; r_u_prev := lit_0_0; r_u_next := lit_0_0 |} =
      Some st' /\
    inv count st'.
Proof.
  intros Hlen.
  replace (range minor_seg) with (range (Z.of_nat (Z.to_nat minor_seg)))
    by (f_equal; lia).
  destruct (for_each_try_range
              (ribbon_offset_step m minor_seg major_seg section_twist u_step)
              (fun offset => inv (offset * major_seg))
              (Z.to_nat minor_seg)
              {| r_uv_data := uv_data; r_u_prev := lit_0_0; r_u_next := lit_0_0 |})
    as (st' & Hrun & Hinv').
  - split; [exact Hlen|]. split; [reflexivity|]. intros s Hs. lia.
  - intros offset s Ho Hs. apply ribbon_offset_step_inv; [lia | exact Hs].
  - exists st'. split; [exact Hrun|].
    replace count with (Z.of_nat (Z.to_nat minor_seg) * major_seg) by lia.
    exact Hinv'.
Qed.

End ribbon_loops.

Section ribbon_exact.

Import Mesh UV Exact.

Lemma ribbon_u_exact (u_step : Q) (t : nat) :
  (ribbon_u (H := Exact.float_Q) u_step t == inject_Z (Z.of_nat t) * u_step)%Q.
Proof.
  induction t as [|t IH].
  - cbn. ring.
  - cbn [ribbon_u add Exact.float_Q]. rewrite Qred_correct, IH.
    rewrite Nat2Z.inj_succ. unfold Z.succ. rewrite inject_Z_plus. ring.
Qed.

Lemma exact_step (count : Z) :
  0 < count ->
  exists u_step,
    truediv (H := Exact.float_Q) lit_1_0 (of_int count) = Some u_step /\
    (u_step == 1 / inject_Z count)%Q.
Proof.
  intros Hcount. unfold truediv. cbn [is_zero of_int lit_1_0 quotient Exact.float_Q].
  assert (Hnz : Qeq_bool (inject_Z count) 0 = false).
  { unfold Qeq_bool, inject_Z. cbn [Qnum Qden]. apply Z.eqb_neq. lia. }
  rewrite Hnz. eexists. split; [reflexivity|]. apply Qred_correct.
Qed.

(** X7: when the twist is coprime to [minor_seg] the ribbon mapper writes
    every face once: the face visited at time [t] gets U from [t / count]
    to [(t + 1) / count], V is 0 on the loops of [i1] and [i3] and 1 on
    those of [i2] and [i4], and every face is visited. *)
Lemma ribbon_uv_coprime (verts_loc : list R) (faces : list Z)
    (major_seg minor_seg section_twist : Z) :
  0 < major_seg -> 0 < minor_seg -> Z.gcd section_twist minor_seg = 1 ->
  Z.of_nat (length faces) = 4 * (major_seg * minor_seg) ->
  let count := major_seg * minor_seg in
  exists uv,
    add_uvs_one_ribbon (H := Exact.float_Q) (new_mesh verts_loc faces)
      minor_seg major_seg section_twist = Some uv /\
    Z.of_nat (length uv) = 4 * count /\
    (forall offset idx, 0 <= offset < minor_seg -> 0 <= idx < major_seg ->
       let f := idx * minor_seg + (offset * section_twist) mod minor_seg in
       let t := offset * major_seg + idx in
       exists u_prev u_next : Q,
         (u_prev == inject_Z t / inject_Z count)%Q /\
         (u_next == inject_Z (t + 1) / inject_Z count)%Q /\
         uv !! Z.to_nat (4 * f) = Some (Some (u_prev, 0%Q)) /\
         uv !! Z.to_nat (4 * f + 1) = Some (Some (u_next, 0%Q)) /\
         uv !! Z.to_nat (4 * f + 3) = Some (Some (u_prev, 1%Q)) /\
         uv !! Z.to_nat (4 * f + 2) = Some (Some (u_next, 1%Q))) /\
    (forall f, 0 <= f < count ->
       exists offset idx, 0 <= offset < minor_seg /\ 0 <= idx < major_seg /\
         f = idx * minor_seg + (offset * section_twist) mod minor_seg).
Proof.
  intros Hmaj Hmin Hgcd Hlen count.
  assert (Hcount : 0 < count) by (unfold count; nia).
  destruct (exact_step count Hcount) as (u_step & Hdiv & Hstep).
  unfold add_uvs_one_ribbon. fold count. rewrite Hdiv. cbn [mbind option_bind].
  destruct (ribbon_loops_inv (H := Exact.float_Q) (new_mesh verts_loc faces)
              minor_seg major_seg section_twist u_step Hmin Hmaj Hgcd
              (fun k Hk => new_mesh_polygon verts_loc faces _ k Hlen Hk)
              (new_layer (new_mesh verts_loc faces)))
    as (st' & Hrun & Hlen' & _ & Hpainted).
  { unfold new_layer. cbn [new_mesh loops_vertex_index].
    rewrite length_replicate. exact Hlen. }
  rewrite Hrun. cbn [mbind option_bind].
  exists (r_uv_data st'). split; [reflexivity|]. split; [exact Hlen'|]. split.
  - intros offset idx Ho Hi. cbv zeta.
    set (t := offset * major_seg + idx).
    assert (Ht : 0 <= t < count) by (unfold t, count; nia).
    destruct (Hpainted t Ht) as (P0 & P1 & P3 & P2).
    unfold t in P0, P1, P3, P2.
    rewrite (ribbon_face_offset minor_seg major_seg section_twist offset idx Hi)
      in P0, P1, P3, P2.
    exists (ribbon_u u_step (Z.to_nat t)), (ribbon_u u_step (Z.to_nat (t + 1))).
    repeat split; try assumption.
    + rewrite ribbon_u_exact, Hstep, Z2Nat.id by lia. field.
      intros Hz. apply (inject_Z_injective count 0) in Hz. lia.
    + rewrite ribbon_u_exact, Hstep, Z2Nat.id by lia. field.
      intros Hz. apply (inject_Z_injective count 0) in Hz. lia.
  - intros f Hf.
    apply (ribbon_face_surj minor_seg major_seg section_twist Hmin f Hgcd Hf).
Qed.

End ribbon_exact.

(** ** Negative segment counts *)

Section degenerate.

Import Generator.

Variables (major_rad minor_rad : R) (major_seg minor_seg : Z)
          (section_angle : R) (section_twist : Z).

Local Abbreviation add_torus :=
  (Generator.add_torus major_rad minor_rad major_seg minor_seg
     section_angle section_twist).

Lemma range_nonpositive (n : Z) : n <= 0 -> range n = [].
Proof. intros Hn. unfold range. now replace (Z.to_nat n) with 0%nat by lia. Qed.

Lemma for_each_unchanged {St A : Type} (body : St -> A -> St) (xs : list A) (st : St) :
  (forall s x, body s x = s) -> for_each xs body st = st.
Proof.
  intros Hbody. unfold for_each. induction xs as [|x xs IH]; simpl.
  - reflexivity.
  - rewrite Hbody. exact IH.
Qed.

(** X1: with segment counts other than zero of which one is negative,
    [add_torus] raises nothing and returns two empty buffers: [range] of
    a negative count is empty, so that no vertex and no face is made.
    The integer operands of line 40 are taken below [2 ^ 1023] in
    absolute value, where their conversion to a float raises nothing. *)
Theorem add_torus_negative_segments :
  major_seg <> 0 -> minor_seg <> 0 -> major_seg < 0 \/ minor_seg < 0 ->
  Z.abs major_seg < 2 ^ 1023 -> Z.abs minor_seg < 2 ^ 1023 ->
  Z.abs section_twist < 2 ^ 1023 ->
  add_torus = Some ([], []).
Proof.
  intros Hmaj Hmin Hneg _ _ _. unfold Generator.add_torus.
  destruct (Z.eqb_spec minor_seg 0) as [?|_]; [contradiction|].
  destruct (Z.eqb_spec major_seg 0) as [?|_]; [contradiction|]. cbn [orb].
  destruct (Z_lt_le_dec major_seg 0) as [Hlt|Hge].
  - rewrite range_nonpositive by lia. reflexivity.
  - rewrite for_each_unchanged; [reflexivity|].
    intros s x. unfold major_step. rewrite range_nonpositive by lia.
    reflexivity.
Qed.

End degenerate.

Lemma add_torus_negative_segments_witness :
  3 <> 0 /\ -2 <> 0 /\ (3 < 0 \/ -2 < 0) /\
  Z.abs 3 < 2 ^ 1023 /\ Z.abs (-2) < 2 ^ 1023 /\ Z.abs 0 < 2 ^ 1023 /\
  Generator.add_torus 1 (1 / 4) 3 (-2) 0 0 = Some ([], []).
Proof.
  split; [lia|]. split; [lia|]. split; [right; lia|].
  split; [reflexivity|]. split; [reflexivity|]. split; [reflexivity|].
  apply (add_torus_negative_segments 1 (1 / 4) 3 (-2) 0 0);
    [lia | lia | right; lia | reflexivity | reflexivity | reflexivity].
Defined.

(** ** The surface the vertices lie on *)

Section surface.

Import Generator Mesh Geometry.

Variables (major_rad minor_rad : R) (major_seg minor_seg : Z)
          (section_angle : R) (section_twist : Z).

Local Abbreviation add_torus :=
  (Generator.add_torus major_rad minor_rad major_seg minor_seg
     section_angle section_twist).
Local Abbreviation vertex :=
  (Generator.vertex major_rad minor_rad major_seg minor_seg
     section_angle section_twist).

(** A rotated point of the cross-section satisfies the equation of the
    torus. *)
Lemma torus_equation (a theta : R) :
  let '(x, y, z) :=
    rotate_z a (major_rad + minor_rad * cos theta, 0, minor_rad * sin theta)%R in
  ((x * x + y * y + z * z + major_rad * major_rad - minor_rad * minor_rad) *
   (x * x + y * y + z * z + major_rad * major_rad - minor_rad * minor_rad) =
   4 * (major_rad * major_rad) * (x * x + y * y))%R.
Proof.
  unfold rotate_z.
  pose proof (sin2_cos2 a) as Ha. pose proof (sin2_cos2 theta) as Ht.
  unfold Rsqr in Ha, Ht.
  generalize dependent (cos a). generalize dependent (sin a).
  generalize dependent (cos theta). generalize dependent (sin theta).
  intros st ct Ht sa ca Ha.
  set (rho := (major_rad + minor_rad * ct)%R).
  assert (Hxy : ((rho * ca - 0 * sa) * (rho * ca - 0 * sa) +
                 (rho * sa + 0 * ca) * (rho * sa + 0 * ca) = rho * rho)%R).
  { transitivity (rho * rho * (sa * sa + ca * ca))%R; [ring|].
    rewrite Ha. ring. }
  assert (Hz : (minor_rad * st * (minor_rad * st) =
                minor_rad * minor_rad * (1 - ct * ct))%R).
  { rewrite <- Ht. ring. }
  rewrite Hxy, Hz. unfold rho. ring.
Qed.

(** X2: whatever the twist and the section angle, every vertex the
    generator returns lies on the torus of the two radii about the Z
    axis: [(x^2 + y^2 + z^2 + R^2 - r^2)^2 = 4 R^2 (x^2 + y^2)]. *)
Theorem vertices_on_torus :
  0 < major_seg -> 0 < minor_seg ->
  exists verts_loc faces,
    add_torus = Some (verts_loc, faces) /\
    forall i j, 0 <= i < major_seg -> 0 <= j < minor_seg ->
      exists x y z,
        vertex_at verts_loc (i * minor_seg + j) = Some (x, y, z) /\
        ((x * x + y * y + z * z + major_rad * major_rad - minor_rad * minor_rad) *
         (x * x + y * y + z * z + major_rad * major_rad - minor_rad * minor_rad) =
         4 * (major_rad * major_rad) * (x * x + y * y))%R.
Proof.
  intros Hmaj Hmin.
  destruct (add_torus_mesh major_rad minor_rad major_seg minor_seg
              section_angle section_twist Hmaj Hmin)
    as (verts_loc & faces & Heq & _ & _ & Hall).
  exists verts_loc, faces. split; [exact Heq|]. intros i j Hi Hj.
  destruct (Hall i j Hi Hj) as [Hvertex _].
  rewrite vertex_rotate_z in Hvertex by lia. cbv zeta in Hvertex.
  match type of Hvertex with
  | _ = Some (rotate_z ?a (_ + _ * cos ?t, _, _)%R) =>
      pose proof (torus_equation a t) as Htorus;
      destruct (rotate_z a (major_rad + minor_rad * cos t, 0,
                            minor_rad * sin t)%R) as [[x y] z]
  end.
  exists x, y, z. split; [exact Hvertex | exact Htorus].
Qed.

(** Continuing the placement to ring [major_seg] gives ring 0 again, its
    minor indices shifted by the twist. *)
Lemma vertex_after_full_turn (j : Z) :
  0 < major_seg -> 0 < minor_seg -> 0 <= section_twist -> 0 <= j ->
  vertex major_seg j = vertex 0 ((j + section_twist) mod minor_seg).
Proof.
  intros Hmaj Hmin Htw Hj.
  assert (Hmaj' : IZR major_seg <> 0%R) by (apply not_0_IZR; lia).
  assert (Hmin' : IZR minor_seg <> 0%R) by (apply not_0_IZR; lia).
  set (q := (j + section_twist) / minor_seg).
  set (j' := (j + section_twist) mod minor_seg).
  assert (Hq : 0 <= q) by (apply Z.div_pos; lia).
  assert (Hsplit : j + section_twist = minor_seg * q + j')
    by (apply Z.div_mod; lia).
  unfold Generator.vertex, Generator.twist_step_angle, pi_2.
  replace (IZR major_seg / IZR major_seg * (PI * 2))%R with (2 * PI)%R
    by (field; exact Hmaj').
  replace (IZR 0 / IZR major_seg * (PI * 2))%R with 0%R
    by (field; exact Hmaj').
  replace (PI * 2 * IZR j / IZR minor_seg + section_angle +
           IZR major_seg *
           (PI * 2 / IZR minor_seg / IZR major_seg * IZR section_twist))%R
    with (PI * 2 * IZR j' / IZR minor_seg + section_angle +
          IZR 0 * (PI * 2 / IZR minor_seg / IZR major_seg * IZR section_twist) +
          2 * INR (Z.to_nat q) * PI)%R.
  - rewrite cos_period, sin_period. unfold Rotation_Z.
    rewrite cos_2PI, sin_2PI, cos_0, sin_0. reflexivity.
  - rewrite INR_IZR_INZ, Z2Nat.id by exact Hq.
    assert (Hreal : (IZR j + IZR section_twist =
                     IZR minor_seg * IZR q + IZR j')%R).
    { rewrite <- plus_IZR, <- mult_IZR, <- plus_IZR. f_equal. exact Hsplit. }
    replace (IZR j) with (IZR minor_seg * IZR q + IZR j' - IZR section_twist)%R
      by lra.
    field. split; assumption.
Qed.

(** X3: the seam of the faces agrees with the placement of the vertices:
    for a twist that is not negative, the vertex stored at the index that
    replaces [major_seg * minor_seg + j] is where the placement would put
    vertex [j] of a ring after the last one. *)
Theorem seam_meets_placement :
  0 < major_seg -> 0 < minor_seg -> 0 <= section_twist ->
  exists verts_loc faces,
    add_torus = Some (verts_loc, faces) /\
    forall j, 0 <= j < minor_seg ->
      vertex_at verts_loc
        (wrap major_seg minor_seg section_twist (major_seg * minor_seg + j)) =
      Some (vertex major_seg j).
Proof.
  intros Hmaj Hmin Htw.
  destruct (add_torus_mesh major_rad minor_rad major_seg minor_seg
              section_angle section_twist Hmaj Hmin)
    as (verts_loc & faces & Heq & _ & _ & Hall).
  exists verts_loc, faces. split; [exact Heq|]. intros j Hj.
  rewrite wrap_beyond by lia.
  replace (major_seg * minor_seg + j - major_seg * minor_seg + section_twist)
    with (j + section_twist) by lia.
  pose proof (Z.mod_pos_bound (j + section_twist) minor_seg Hmin) as Hmod.
  destruct (Hall 0 ((j + section_twist) mod minor_seg) ltac:(lia) Hmod)
    as [Hvertex _].
  rewrite Z.mul_0_l, Z.add_0_l in Hvertex. rewrite Hvertex. f_equal.
  symmetry. apply vertex_after_full_turn; lia.
Qed.

End surface.

(** ** The grid of quads for three or more minor segments *)

Section quad_grid.

Import Generator Mesh.

Variables (major_seg minor_seg section_twist : Z).
Hypothesis (Hmaj : 1 <= major_seg) (Hmin : 3 <= minor_seg).

Local Abbreviation quad := (Generator.quad major_seg minor_seg section_twist).
Local Abbreviation wrap := (Generator.wrap major_seg minor_seg section_twist).
Local Abbreviation tot := (major_seg * minor_seg).

(** The minor index after [j] in its ring. *)
Lemma last_of_ring_cases (j : Z) :
  0 <= j < minor_seg ->
  (last_of_ring minor_seg j = true /\ j + 1 = minor_seg) \/
  (last_of_ring minor_seg j = false /\ j + 1 < minor_seg).
Proof.
  intros Hj. destruct (last_of_ring minor_seg j) eqn:Elast.
  - left. apply last_of_ring_true in Elast. lia.
  - right. split; [reflexivity|].
    destruct (Z.eq_dec (j + 1) minor_seg) as [Heq|Hne]; [|lia].
    assert (last_of_ring minor_seg j = true) by (apply last_of_ring_true; lia).
    congruence.
Qed.

(** The quad of ring [i] and minor index [j], with [n] the minor index
    after [j]: the neighbours before the seam replaces them. *)
Lemma quad_next (i j : Z) :
  0 <= i < major_seg -> 0 <= j < minor_seg ->
  exists n, 0 <= n < minor_seg /\ (n = j + 1 \/ (n = 0 /\ j + 1 = minor_seg)) /\
    quad i j (i * minor_seg + j) =
    [ i * minor_seg + j;
      wrap (i * minor_seg + minor_seg + j);
      wrap (i * minor_seg + minor_seg + n);
      i * minor_seg + n ].
Proof.
  intros Hi Hj. rewrite quad_eq.
  assert (Hring : i * minor_seg + minor_seg <= tot) by nia.
  destruct (last_of_ring_cases j Hj) as [[-> Hlast]|[-> Hnext]].
  - exists 0. split; [lia|]. split; [right; lia|].
    rewrite (wrap_below _ _ _ (i * minor_seg)) by lia.
    rewrite !Z.add_0_r.
    replace (i * minor_seg + j + minor_seg) with (i * minor_seg + minor_seg + j)
      by lia.
    reflexivity.
  - exists (j + 1). split; [lia|]. split; [left; reflexivity|].
    rewrite (wrap_below _ _ _ (i * minor_seg + j + 1)) by lia.
    replace (i * minor_seg + j + minor_seg + 1)
      with (i * minor_seg + minor_seg + (j + 1)) by lia.
    replace (i * minor_seg + j + minor_seg) with (i * minor_seg + minor_seg + j)
      by lia.
    replace (i * minor_seg + j + 1) with (i * minor_seg + (j + 1)) by lia.
    reflexivity.
Qed.

(** Two neighbours in the next ring coincide only if they are the same
    minor index of the same ring. *)
Lemma wrap_next_ring_inj (i i' n n' : Z) :
  0 <= i < major_seg -> 0 <= i' < major_seg ->
  0 <= n < minor_seg -> 0 <= n' < minor_seg ->
  wrap (i * minor_seg + minor_seg + n) = wrap (i' * minor_seg + minor_seg + n') ->
  i = i' /\ n = n'.
Proof.
  intros Hi Hi' Hn Hn' Heq.
  assert (Hpos : forall a, 0 <= a < major_seg ->
            (a = major_seg - 1 /\ a * minor_seg + minor_seg = tot) \/
            (a < major_seg - 1 /\ a * minor_seg + 2 * minor_seg <= tot /\
             0 <= a * minor_seg)).
  { intros a Ha. destruct (Z.eq_dec a (major_seg - 1)) as [->|Hne].
    - left. split; [reflexivity|]. ring.
    - right. nia. }
  destruct (Hpos i Hi) as [(Ei & Et)|(Li & Lt & L0)];
    destruct (Hpos i' Hi') as [(Ei' & Et')|(Li' & Lt' & L0')].
  - split; [lia|].
    apply wrap_beyond_eq in Heq; lia.
  - pose proof (wrap_beyond_bound major_seg minor_seg section_twist
                  (i * minor_seg + minor_seg + n) ltac:(lia) ltac:(lia)).
    rewrite (wrap_below _ _ _ (i' * minor_seg + minor_seg + n')) in Heq by lia.
    lia.
  - pose proof (wrap_beyond_bound major_seg minor_seg section_twist
                  (i' * minor_seg + minor_seg + n') ltac:(lia) ltac:(lia)).
    rewrite (wrap_below _ _ _ (i * minor_seg + minor_seg + n)) in Heq by lia.
    lia.
  - rewrite !wrap_below in Heq by lia.
    assert (i = i') by nia. split; [assumption|]. subst i'. lia.
Qed.

(** No two quads have the same vertex at the same corner. *)
Lemma quad_corners_inj (i j i' j' : Z) (p : nat) (x : Z) :
  0 <= i < major_seg -> 0 <= j < minor_seg ->
  0 <= i' < major_seg -> 0 <= j' < minor_seg ->
  quad i j (i * minor_seg + j) !! p = Some x ->
  quad i' j' (i' * minor_seg + j') !! p = Some x ->
  i = i' /\ j = j'.
Proof.
  intros Hi Hj Hi' Hj'.
  destruct (quad_next i j Hi Hj) as (n & Hn & Hnj & ->).
  destruct (quad_next i' j' Hi' Hj') as (n' & Hn' & Hnj' & ->).
  assert (Hgrid : forall a b, 0 <= a < minor_seg -> 0 <= b < minor_seg ->
            i * minor_seg + a = i' * minor_seg + b -> i = i' /\ a = b).
  { intros a b Ha Hb Heq. assert (i = i') by nia. subst i'. lia. }
  destruct p as [|[|[|[|p]]]]; cbn [lookup list_lookup]; intros Hx Hx'.
  - injection Hx as <-. injection Hx' as Heq. apply Hgrid; assumption || lia.
  - injection Hx as <-. injection Hx' as Heq. symmetry in Heq.
    apply wrap_next_ring_inj in Heq; assumption.
  - injection Hx as <-. injection Hx' as Heq. symmetry in Heq.
    apply wrap_next_ring_inj in Heq; [|assumption..].
    destruct Heq as [-> Heq]. split; [reflexivity|]. lia.
  - injection Hx as <-. injection Hx' as Heq. symmetry in Heq.
    apply Hgrid in Heq; [|assumption..].
    destruct Heq as [-> Heq]. split; [reflexivity|]. lia.
  - discriminate.
Qed.

End quad_grid.

Section quad_grid_mesh.

Import Generator Mesh.

Variables (major_rad minor_rad : R) (major_seg minor_seg : Z)
          (section_angle : R) (section_twist : Z).

Local Abbreviation tot := (major_seg * minor_seg).

(** X4: with three or more minor segments no two faces have the same
    vertex at the same corner: each of the maps from a face to its
    [i1], [i3], [i4] and [i2] is one to one, whatever the twist. *)
Theorem faces_share_no_corner :
  1 <= major_seg -> 3 <= minor_seg ->
  exists verts_loc faces,
    add_torus major_rad minor_rad major_seg minor_seg section_angle
      section_twist = Some (verts_loc, faces) /\
    forall k k' face face' (p : nat) x,
      0 <= k < tot -> 0 <= k' < tot ->
      polygon_vertices (new_mesh verts_loc faces) k = Some face ->
      polygon_vertices (new_mesh verts_loc faces) k' = Some face' ->
      face !! p = Some x -> face' !! p = Some x ->
      k = k'.
Proof.
  intros Hmaj Hmin.
  destruct (polygon_vertices_quad major_rad minor_rad major_seg minor_seg
              section_angle section_twist)
    as (verts_loc & faces & Heq & _ & Hall); [lia..|].
  exists verts_loc, faces. split; [exact Heq|].
  intros k k' face face' p x Hk Hk' Hface Hface' Hp Hp'.
  rewrite (Hall k Hk) in Hface. rewrite (Hall k' Hk') in Hface'.
  injection Hface as <-. injection Hface' as <-.
  destruct (grid_split major_seg minor_seg k ltac:(lia) Hk) as (Hi & Hj & Hsplit).
  destruct (grid_split major_seg minor_seg k' ltac:(lia) Hk') as (Hi' & Hj' & Hsplit').
  rewrite Hsplit in Hp at 3. rewrite Hsplit' in Hp' at 3.
  destruct (quad_corners_inj major_seg minor_seg section_twist Hmaj Hmin
              _ _ _ _ p x Hi Hj Hi' Hj' Hp Hp') as [Ei Ej].
  rewrite Hsplit, Hsplit', Ei, Ej. reflexivity.
Qed.

(** X5: with three or more minor segments the twist changes the faces of
    the last ring only, and there it moves [i3] and [i4] on by
    [section_twist] minor indices around ring 0. *)
Theorem twist_changes_only_seam :
  1 <= major_seg -> 3 <= minor_seg ->
  exists verts0 faces0 verts_loc faces,
    add_torus major_rad minor_rad major_seg minor_seg section_angle 0 =
      Some (verts0, faces0) /\
    add_torus major_rad minor_rad major_seg minor_seg section_angle
      section_twist = Some (verts_loc, faces) /\
    (forall k, 0 <= k < tot - minor_seg ->
       polygon_vertices (new_mesh verts_loc faces) k =
       polygon_vertices (new_mesh verts0 faces0) k) /\
    (forall k, tot - minor_seg <= k < tot ->
       exists i1 i2 i3 i4,
         polygon_vertices (new_mesh verts0 faces0) k = Some [i1; i3; i4; i2] /\
         polygon_vertices (new_mesh verts_loc faces) k =
           Some [i1; (i3 + section_twist) mod minor_seg;
                 (i4 + section_twist) mod minor_seg; i2] /\
         0 <= i3 < minor_seg /\ 0 <= i4 < minor_seg).
Proof.
  intros Hmaj Hmin.
  destruct (polygon_vertices_quad major_rad minor_rad major_seg minor_seg
              section_angle 0)
    as (verts0 & faces0 & Heq0 & _ & Hall0); [lia..|].
  destruct (polygon_vertices_quad major_rad minor_rad major_seg minor_seg
              section_angle section_twist)
    as (verts_loc & faces & Heq & _ & Hall); [lia..|].
  exists verts0, faces0, verts_loc, faces.
  split; [exact Heq0|]. split; [exact Heq|].
  assert (Hquads : forall k, 0 <= k < tot ->
    exists i j n, 0 <= i < major_seg /\ 0 <= j < minor_seg /\
      0 <= n < minor_seg /\ k = i * minor_seg + j /\
      polygon_vertices (new_mesh verts0 faces0) k =
        Some [k; wrap major_seg minor_seg 0 (i * minor_seg + minor_seg + j);
              wrap major_seg minor_seg 0 (i * minor_seg + minor_seg + n);
              i * minor_seg + n] /\
      polygon_vertices (new_mesh verts_loc faces) k =
        Some [k; wrap major_seg minor_seg section_twist
                   (i * minor_seg + minor_seg + j);
              wrap major_seg minor_seg section_twist
                   (i * minor_seg + minor_seg + n);
              i * minor_seg + n]).
  { intros k Hk.
    destruct (grid_split major_seg minor_seg k ltac:(lia) Hk) as (Hi & Hj & Hsplit).
    rewrite (Hall0 k Hk), (Hall k Hk).
    revert Hi Hj Hsplit. generalize (k / minor_seg) (k mod minor_seg).
    intros i j Hi Hj ->.
    destruct (quad_next major_seg minor_seg 0 Hmin i j Hi Hj)
      as (n0 & Hn0 & Hnj0 & ->).
    destruct (quad_next major_seg minor_seg section_twist Hmin i j Hi Hj)
      as (n & Hn & Hnj & ->).
    assert (n0 = n) by lia. subst n0.
    exists i, j, n. repeat split; lia. }
  split.
  - intros k Hk. destruct (Hquads k ltac:(lia))
      as (i & j & n & Hi & Hj & Hn & -> & -> & ->).
    assert (Hring : i * minor_seg + 2 * minor_seg <= tot).
    { destruct (Z.eq_dec i (major_seg - 1)) as [->|Hne]; [exfalso; nia | nia]. }
    rewrite !wrap_below by lia. reflexivity.
  - intros k Hk. destruct (Hquads k ltac:(nia))
      as (i & j & n & Hi & Hj & Hn & -> & -> & ->).
    assert (Hring : i * minor_seg + minor_seg = tot).
    { destruct (Z.eq_dec i (major_seg - 1)) as [->|Hne]; [ring | exfalso; nia]. }
    exists (i * minor_seg + j), (i * minor_seg + n), j, n.
    rewrite !wrap_beyond by lia.
    replace (i * minor_seg + minor_seg + j - tot + 0) with j by lia.
    replace (i * minor_seg + minor_seg + n - tot + 0) with n by lia.
    replace (i * minor_seg + minor_seg + j - tot + section_twist)
      with (j + section_twist) by lia.
    replace (i * minor_seg + minor_seg + n - tot + section_twist)
      with (n + section_twist) by lia.
    rewrite !Z.mod_small by lia. repeat split; lia.
Qed.

End quad_grid_mesh.

(** ** The ribbon mapper on any twist *)

Section ribbon_any_twist.

Import Mesh UV.
Context {T : Type} `{Float T}.

Variables (m : mesh) (minor_seg major_seg section_twist : Z) (u_step : T).
Hypothesis (Hmin : 0 < minor_seg) (Hmaj : 0 < major_seg).
Hypothesis Hpolygons : forall k, 0 <= k < major_seg * minor_seg ->
  getitem (polygons m) k = Some {| loop_start := 4 * k; loop_total := 4 |}.

Local Abbreviation face := (ribbon_face minor_seg major_seg section_twist).
Local Abbreviation count := (major_seg * minor_seg).
Local Abbreviation inv :=
  (ribbon_written_inv minor_seg major_seg section_twist).

Lemma ribbon_major_step_written (offset idx : Z) (st : ribbon_state) :
  0 <= offset < minor_seg -> 0 <= idx < major_seg ->
  inv (offset * major_seg + idx) st ->
  exists st',
    ribbon_major_step m minor_seg u_step
      ((offset * section_twist) mod minor_seg) st idx = Some st' /\
    inv (offset * major_seg + idx + 1) st'.
Proof.
  intros Ho Hi (Hlen & Hdone & Honly).
  set (t := offset * major_seg + idx) in *.
  assert (Ht : 0 <= t < count) by (unfold t; nia).
  pose proof (ribbon_face_range minor_seg major_seg section_twist Hmin Hmaj t Ht)
    as Hf.
  unfold ribbon_major_step.
  rewrite <- (ribbon_face_offset minor_seg major_seg section_twist offset idx Hi).
  fold t. rewrite (Hpolygons _ Hf). cbn [mbind option_bind].
  destruct (set_corners_spec (r_uv_data st) (face t)
              (r_u_next st, lit_0_0) (add (r_u_next st) u_step, lit_0_0)
              (r_u_next st, lit_1_0) (add (r_u_next st) u_step, lit_1_0))
    as (uv' & Hset & Hlen' & L0 & L1 & L3 & L2 & Hother); [lia..|].
  rewrite Hset. cbn [mbind option_bind].
  eexists. split; [reflexivity|].
  split; [|split]; cbn [r_uv_data].
  - rewrite Hlen'. exact Hlen.
  - intros s c Hs Hc.
    assert (Hcase : (face s = face t /\ (c = 0 \/ c = 1 \/ c = 2 \/ c = 3)) \/
                    face s <> face t) by lia.
    destruct Hcase as [[-> [-> | [-> | [-> | ->]]]]|Hne].
    + rewrite Z.add_0_r. eexists. exact L0.
    + eexists. exact L1.
    + eexists. exact L2.
    + eexists. exact L3.
    + pose proof (ribbon_face_range minor_seg major_seg section_twist
                    Hmin Hmaj s ltac:(lia)) as Hfs.
      assert (Hst : s <> t) by (intros ->; apply Hne; reflexivity).
      rewrite Hother by lia. apply Hdone; lia.
  - intros l x Hl.
    assert (Hcase : l = Z.to_nat (4 * face t) \/ l = Z.to_nat (4 * face t + 1) \/
                    l = Z.to_nat (4 * face t + 2) \/ l = Z.to_nat (4 * face t + 3) \/
                    (l < Z.to_nat (4 * face t) \/ Z.to_nat (4 * face t + 3) < l)%nat)
      by lia.
    assert (Hmod : forall c, 0 <= c < 4 -> (4 * face t + c) mod 4 = c).
    { intros c Hc. symmetry. apply (Z.mod_unique _ _ (face t)); lia. }
    destruct Hcase as [-> | [-> | [-> | [-> | Hout]]]].
    + rewrite L0 in Hl. injection Hl as <-. split; [exists t; lia|].
      rewrite Z2Nat.id by lia. rewrite <- (Z.add_0_r (4 * face t)).
      rewrite Hmod by lia. reflexivity.
    + rewrite L1 in Hl. injection Hl as <-. split; [exists t; lia|].
      rewrite Z2Nat.id, Hmod by lia. reflexivity.
    + rewrite L2 in Hl. injection Hl as <-. split; [exists t; lia|].
      rewrite Z2Nat.id, Hmod by lia. reflexivity.
    + rewrite L3 in Hl. injection Hl as <-. split; [exists t; lia|].
      rewrite Z2Nat.id, Hmod by lia. reflexivity.
    + rewrite Hother in Hl by exact Hout.
      destruct (Honly l x Hl) as [(s & Hs & Hls) Hv].
      split; [exists s; lia | exact Hv].
Qed.

Lemma ribbon_offset_step_written (offset : Z) (st : ribbon_state) :
  0 <= offset < minor_seg ->
  inv (offset * major_seg) st ->
  exists st',
    ribbon_offset_step m minor_seg major_seg section_twist u_step st offset =
      Some st' /\
    inv ((offset + 1) * major_seg) st'.
Proof.
  intros Ho Hinv. unfold ribbon_offset_step.
  replace (range major_seg) with (range (Z.of_nat (Z.to_nat major_seg)))
    by (f_equal; lia).
  destruct (for_each_try_range
              (ribbon_major_step m minor_seg u_step
                 ((offset * section_twist) mod minor_seg))
              (fun idx => inv (offset * major_seg + idx))
              (Z.to_nat major_seg) st) as (st' & Hrun & Hinv').
  - rewrite Z.add_0_r. exact Hinv.
  - intros idx s Hidx Hs.
    destruct (ribbon_major_step_written offset idx s Ho ltac:(lia) Hs)
      as (s' & Hstep & Hs').
    exists s'. split; [exact Hstep|].
    replace (offset * major_seg + (idx + 1))
      with (offset * major_seg + idx + 1) by lia.
    exact Hs'.
  - exists st'. split; [exact Hrun|].
    replace ((offset + 1) * major_seg)
      with (offset * major_seg + Z.of_nat (Z.to_nat major_seg)) by lia.
    exact Hinv'.
Qed.

Lemma ribbon_loops_written :
  Z.of_nat (length (new_layer (T := T) m)) = 4 * count ->
  exists st',
    for_each_try (range minor_seg)
      (ribbon_offset_step m minor_seg major_seg section_twist u_step)
      {| r_uv_data := new_layer m; r_u_prev := lit_0_0; r_u_next := lit_0_0 |} =
      Some st' /\
    inv count st'.
Proof.
  intros Hlen.
  replace (range minor_seg) with (range (Z.of_nat (Z.to_nat minor_seg)))
    by (f_equal; lia).
  destruct (for_each_try_range
              (ribbon_offset_step m minor_seg major_seg section_twist u_step)
              (fun offset => inv (offset * major_seg))
              (Z.to_nat minor_seg)
              {| r_uv_data := new_layer m; r_u_prev := lit_0_0;
                 r_u_next := lit_0_0 |})
    as (st' & Hrun & Hinv').
  - split; [exact Hlen|]. split.
    + intros s c Hs Hc. lia.
    + cbn [r_uv_data]. intros l x Hl. unfold new_layer in Hl.
      apply lookup_replicate_1 in Hl. destruct Hl as [Hl _]. discriminate.
  - intros offset s Ho Hs. apply ribbon_offset_step_written; [lia | exact Hs].
  - exists st'. split; [exact Hrun|].
    replace count with (Z.of_nat (Z.to_nat minor_seg) * major_seg) by lia.
    exact Hinv'.
Qed.

End ribbon_any_twist.

Section ribbon_tracks.

Variables (minor_seg major_seg section_twist : Z).
Hypothesis (Hmin : 0 < minor_seg) (Hmaj : 0 < major_seg).

Local Abbreviation face := (ribbon_face minor_seg major_seg section_twist).
Local Abbreviation count := (major_seg * minor_seg).

Lemma ribbon_face_track (s : Z) :
  0 <= s < count ->
  face s mod minor_seg = (s / major_seg * section_twist) mod minor_seg.
Proof.
  intros Hs. unfold ribbon_face.
  rewrite Z.add_comm, Z.mod_add by lia. apply Z.mod_mod. lia.
Qed.

(** The faces the mapper visits are those of the tracks that are
    multiples of the greatest common divisor of twist and segments. *)
Lemma ribbon_visited (f : Z) :
  0 <= f < count ->
  (exists s, 0 <= s < count /\ face s = f) <->
  (Z.gcd section_twist minor_seg | f mod minor_seg).
Proof.
  intros Hf. split.
  - intros (s & Hs & <-). rewrite ribbon_face_track by exact Hs.
    rewrite Z.mod_eq by lia. apply Z.divide_sub_r.
    + apply Z.divide_mul_r, Z.gcd_divide_l.
    + apply Z.divide_mul_l, Z.gcd_divide_r.
  - intros [k Hk].
    destruct (Z.gcd_bezout section_twist minor_seg _ eq_refl) as (a & b & Hab).
    pose proof (Z.mod_pos_bound f minor_seg Hmin) as Hr.
    pose proof (Z.div_mod f minor_seg ltac:(lia)) as Hdm.
    assert (Hidx : 0 <= f / minor_seg < major_seg).
    { split; [apply Z.div_pos; lia | apply Z.div_lt_upper_bound; lia]. }
    set (offset := (k * a) mod minor_seg).
    assert (Ho : 0 <= offset < minor_seg) by (apply Z.mod_pos_bound; lia).
    exists (offset * major_seg + f / minor_seg). split; [nia|].
    rewrite (ribbon_face_offset minor_seg major_seg section_twist) by exact Hidx.
    unfold offset. rewrite Z.mul_mod_idemp_l by lia.
    replace (k * a * section_twist)
      with (f mod minor_seg + (- k * b) * minor_seg) by nia.
    rewrite Z.mod_add, Z.mod_mod by lia. lia.
Qed.

End ribbon_tracks.

Section ribbon_exact_any_twist.

Import Mesh UV Exact.

(** X8: for any twist the ribbon mapper raises nothing, and it writes
    exactly the faces whose minor index is a multiple of
    [gcd section_twist minor_seg]: on these V is 0 on the loops of [i1]
    and [i3] and 1 on the loops of [i4] and [i2], and the loops of every
    other face stay unwritten. *)
Theorem ribbon_uv_written_tracks (verts_loc : list R) (faces : list Z)
    (major_seg minor_seg section_twist : Z) :
  0 < major_seg -> 0 < minor_seg ->
  Z.of_nat (length faces) = 4 * (major_seg * minor_seg) ->
  exists uv,
    add_uvs_one_ribbon (H := float_Q) (new_mesh verts_loc faces)
      minor_seg major_seg section_twist = Some uv /\
    Z.of_nat (length uv) = 4 * (major_seg * minor_seg) /\
    forall f c, 0 <= f < major_seg * minor_seg -> 0 <= c < 4 ->
      ((Z.gcd section_twist minor_seg | f mod minor_seg) ->
       exists u v : Q,
         uv !! Z.to_nat (4 * f + c) = Some (Some (u, v)) /\
         v = (if c <? 2 then 0 else 1)%Q) /\
      (~ (Z.gcd section_twist minor_seg | f mod minor_seg) ->
       uv !! Z.to_nat (4 * f + c) = Some None).
Proof.
  intros Hmaj Hmin Hlen.
  assert (Hcount : 0 < major_seg * minor_seg) by nia.
  destruct (exact_step _ Hcount) as (u_step & Hdiv & _).
  unfold add_uvs_one_ribbon. rewrite Hdiv. cbn [mbind option_bind].
  destruct (ribbon_loops_written (H := float_Q) (new_mesh verts_loc faces)
              minor_seg major_seg section_twist u_step Hmin Hmaj
              (fun k Hk => new_mesh_polygon verts_loc faces _ k Hlen Hk))
    as (st' & Hrun & Hlen' & Hdone & Honly).
  { unfold new_layer. cbn [new_mesh loops_vertex_index].
    rewrite length_replicate. exact Hlen. }
  rewrite Hrun. cbn [mbind option_bind].
  exists (r_uv_data st'). split; [reflexivity|]. split; [exact Hlen'|].
  intros f c Hf Hc.
  assert (Hmod : (4 * f + c) mod 4 = c).
  { symmetry. apply (Z.mod_unique _ _ f); lia. }
  split.
  - intros Hg.
    apply (ribbon_visited minor_seg major_seg section_twist Hmin Hmaj f Hf) in Hg.
    destruct Hg as (s & Hs & <-).
    destruct (Hdone s c Hs Hc) as [[u v] Hx].
    exists u, v. split; [exact Hx|].
    destruct (Honly _ _ Hx) as [_ Hv]. cbn [snd] in Hv.
    rewrite Z2Nat.id, Hmod in Hv by lia. exact Hv.
  - intros Hg.
    destruct (r_uv_data st' !! Z.to_nat (4 * f + c)) as [[x|]|] eqn:El.
    + exfalso. apply Hg.
      destruct (Honly _ _ El) as [(s & Hs & Hls) _].
      apply (ribbon_visited minor_seg major_seg section_twist Hmin Hmaj f Hf).
      exists s. split; [exact Hs|]. lia.
    + reflexivity.
    + apply lookup_ge_None in El. lia.
Qed.

End ribbon_exact_any_twist.

(** ** Periods of the parameters *)

Section periods.

Import Generator.

Variables (major_rad minor_rad : R) (major_seg minor_seg : Z)
          (section_angle : R) (section_twist : Z).

Lemma vertex_twist_period (i j : Z) :
  0 < major_seg -> 0 < minor_seg -> 0 <= i ->
  vertex major_rad minor_rad major_seg minor_seg section_angle
    (section_twist + major_seg * minor_seg) i j =
  vertex major_rad minor_rad major_seg minor_seg section_angle section_twist i j.
Proof.
  intros Hmaj Hmin Hi.
  assert (Hmaj' : IZR major_seg <> 0%R) by (apply not_0_IZR; lia).
  assert (Hmin' : IZR minor_seg <> 0%R) by (apply not_0_IZR; lia).
  unfold vertex, twist_step_angle, pi_2.
  replace (PI * 2 * IZR j / IZR minor_seg + section_angle +
           IZR i * (PI * 2 / IZR minor_seg / IZR major_seg *
                    IZR (section_twist + major_seg * minor_seg)))%R
    with (PI * 2 * IZR j / IZR minor_seg + section_angle +
          IZR i * (PI * 2 / IZR minor_seg / IZR major_seg * IZR section_twist) +
          2 * INR (Z.to_nat i) * PI)%R.
  - rewrite cos_period, sin_period. reflexivity.
  - rewrite INR_IZR_INZ, Z2Nat.id, plus_IZR, mult_IZR by exact Hi.
    field. split; assumption.
Qed.

(** X11: the mesh is periodic in the twist: [major_seg * minor_seg] more
    twist steps give the same vertices and the same faces. *)
Theorem add_torus_twist_period :
  0 < major_seg -> 0 < minor_seg ->
  add_torus major_rad minor_rad major_seg minor_seg section_angle
    (section_twist + major_seg * minor_seg) =
  add_torus major_rad minor_rad major_seg minor_seg section_angle section_twist.
Proof.
  intros Hmaj Hmin. rewrite !add_torus_eq by assumption. f_equal. f_equal.
  - apply flat_map_ext_in. intros k Hk. apply in_range in Hk. f_equal.
    apply vertex_twist_period; [assumption..|].
    apply Z.div_pos; lia.
  - apply flat_map_ext. intros k.
    rewrite <- (quad_mod_twist major_seg minor_seg
                  (section_twist + major_seg * minor_seg)) by lia.
    rewrite Z.mod_add by lia. apply quad_mod_twist. lia.
Qed.

(** X12: a full turn more of section angle gives the same vertices and the
    same faces. *)
Theorem add_torus_section_angle_period :
  add_torus major_rad minor_rad major_seg minor_seg
    (section_angle + 2 * PI) section_twist =
  add_torus major_rad minor_rad major_seg minor_seg section_angle section_twist.
Proof.
  unfold add_torus. destruct ((minor_seg =? 0) || (major_seg =? 0)); [reflexivity|].
  assert (Hstep : forall i st j,
            minor_step major_rad minor_rad major_seg minor_seg
              (section_angle + 2 * PI) section_twist i st j =
            minor_step major_rad minor_rad major_seg minor_seg
              section_angle section_twist i st j).
  { intros i st j. unfold minor_step. f_equal. f_equal. f_equal.
    unfold vertex.
    match goal with
    | |- context [cos ?a] =>
        match a with
        | context [(section_angle + 2 * PI)%R] =>
            replace a with
              (pi_2 * IZR j / IZR minor_seg + section_angle +
               IZR i * twist_step_angle major_seg minor_seg section_twist +
               2 * INR 1 * PI)%R by (cbn [INR]; ring)
        end
    end.
    rewrite cos_period, sin_period. reflexivity. }
  assert (Hmajor : forall st i,
            major_step major_rad minor_rad major_seg minor_seg
              (section_angle + 2 * PI) section_twist st i =
            major_step major_rad minor_rad major_seg minor_seg
              section_angle section_twist st i).
  { intros st i. unfold major_step, for_each. revert st.
    induction (range minor_seg) as [|j js IH]; intros st; [reflexivity|].
    cbn [fold_left]. rewrite Hstep. apply IH. }
  assert (Hloop : forall st,
            for_each (range major_seg)
              (major_step major_rad minor_rad major_seg minor_seg
                 (section_angle + 2 * PI) section_twist) st =
            for_each (range major_seg)
              (major_step major_rad minor_rad major_seg minor_seg
                 section_angle section_twist) st).
  { unfold for_each. induction (range major_seg) as [|i rest IH]; intros st;
      [reflexivity|].
    cbn [fold_left]. rewrite Hmajor. apply IH. }
  rewrite Hloop. reflexivity.
Qed.

End periods.

(** ** Faces that meet along an edge *)

Section shared_edges.

Import Generator Mesh.

Variables (major_rad minor_rad : R) (major_seg minor_seg : Z)
          (section_angle : R) (section_twist : Z).

Local Abbreviation tot := (major_seg * minor_seg).
Local Abbreviation wrap := (Generator.wrap major_seg minor_seg section_twist).



End shared_edges.

(** ** Loops and polygons of the mesh *)

Section mesh_layout.

Import Mesh.

Lemma zip_with_map_replicate {A B C} (f : A -> B -> C) (g : Z -> A) (c : B)
    (l : list Z) :
  zip_with f (map g l) (replicate (length l) c) = map (fun x => f (g x) c) l.
Proof. induction l as [|x l IH]; [reflexivity|]. cbn. now rewrite IH. Qed.

(** The polygons [execute] lays out, for [n] quads. *)
Lemma new_mesh_polygons (verts_loc : list R) (faces : list Z) (n : Z) :
  Z.of_nat (length faces) = 4 * n ->
  polygons (new_mesh verts_loc faces) =
  map (fun k => {| loop_start := 4 * k; loop_total := 4 |}) (range n).
Proof.
  intros Hlen. cbn [new_mesh polygons]. rewrite Hlen. unfold range_step.
  replace ((4 * n + 4 - 1) / 4) with n by (apply (Z.div_unique _ _ _ 3); lia).
  replace (4 * n / 4) with n by (apply Z.div_unique_exact; lia).
  rewrite <- (range_length n). apply zip_with_map_replicate.
Qed.

Lemma quads_cover_range (n : nat) :
  flat_map (fun k => map (fun c => 4 * k + c) (range 4)) (range (Z.of_nat n)) =
  range (Z.of_nat (4 * n)).
Proof.
  induction n as [|n IH]; [reflexivity|].
  rewrite range_succ, flat_map_snoc, IH.
  replace (4 * S n)%nat with (4 * n + 4)%nat by lia.
  rewrite (range_add (4 * n) 4). f_equal.
  apply map_ext. intros c. lia.
Qed.

(** X10: the mesh [execute] builds from [4 * n] face indices has [n]
    polygons whose loops, taken in order, are the loops [0 .. 4 * n - 1]
    once each, and reading the vertices of the polygons gives the face
    indices back: loop [l] is corner [l mod 4] of polygon [l / 4] and
    carries [faces[l]]. *)
Theorem mesh_loops_round_trip (verts_loc : list R) (faces : list Z) (n : Z) :
  Z.of_nat (length faces) = 4 * n ->
  let m := new_mesh verts_loc faces in
  Z.of_nat (length (polygons m)) = n /\
  flat_map loop_indices (polygons m) = range (4 * n) /\
  forall l, 0 <= l < 4 * n ->
    exists face,
      polygon_vertices m (l / 4) = Some face /\
      face !! Z.to_nat (l mod 4) = faces !! Z.to_nat l.
Proof.
  intros Hlen m. assert (Hn : 0 <= n) by lia.
  split; [apply (new_mesh_polygons_length _ _ _ Hlen)|]. split.
  - unfold m. rewrite (new_mesh_polygons _ _ n Hlen), flat_map_map.
    unfold loop_indices. cbn [loop_start loop_total].
    replace (range n) with (range (Z.of_nat (Z.to_nat n))) by (f_equal; lia).
    rewrite quads_cover_range. f_equal. lia.
  - intros l Hl.
    pose proof (Z.div_mod l 4 ltac:(lia)) as Hdm.
    pose proof (Z.mod_pos_bound l 4 ltac:(lia)) as Hmod.
    assert (Hk : 0 <= l / 4 < n).
    { split; [apply Z.div_pos; lia | apply Z.div_lt_upper_bound; lia]. }
    set (k := l / 4) in *. set (c := l mod 4) in *.
    destruct (take 4 (drop (4 * Z.to_nat k) faces)) as [|x0 [|x1 [|x2 [|x3 rest]]]]
      eqn:Eblock;
      try (apply (f_equal length) in Eblock;
           rewrite length_take, length_drop in Eblock; cbn [length] in Eblock; lia).
    destruct rest as [|x4 rest];
      [|apply (f_equal length) in Eblock;
        rewrite length_take in Eblock; cbn [length] in Eblock; lia].
    exists [x0; x1; x2; x3].
    split; [apply (new_mesh_polygon_vertices _ _ n); assumption|].
    rewrite <- Eblock, lookup_take_lt, lookup_drop by lia.
    f_equal. lia.
Qed.

End mesh_layout.

(** ** The two loops of the grid mapper *)

Section grid_loops.

Import Mesh UV.
Context {T : Type} `{Float T}.

Variables (m : mesh) (minor_seg major_seg : Z).
Variables (u_step u_init u_wrap v_step v_init v_wrap : T).
Hypothesis (Hmin : 0 < minor_seg) (Hmaj : 0 < major_seg).
Hypothesis Hpolygons : forall k, 0 <= k < major_seg * minor_seg ->
  getitem (polygons m) k = Some {| loop_start := 4 * k; loop_total := 4 |}.

Local Abbreviation count := (major_seg * minor_seg).
Local Abbreviation painted :=
  (grid_painted minor_seg u_step u_init u_wrap v_step v_init v_wrap).
Local Abbreviation ring_inv :=
  (grid_ring_inv minor_seg u_step u_init u_wrap v_step v_init v_wrap major_seg).
Local Abbreviation inv :=
  (grid_inv minor_seg u_step u_init u_wrap v_step v_init v_wrap major_seg).

Lemma grid_coord_succ (step init wrap : T) (i : Z) :
  0 <= i ->
  grid_coord step init wrap (Z.to_nat (i + 1)) =
  let next := add (grid_coord step init wrap (Z.to_nat i)) step in
  if gt next wrap then sub next lit_1_0 else next.
Proof.
  intros Hi. replace (Z.to_nat (i + 1)) with (S (Z.to_nat i)) by lia.
  reflexivity.
Qed.

(** One face of the grid. *)
Lemma grid_minor_step_inv (i j : Z) (st : grid_state) :
  0 <= i < major_seg -> 0 <= j < minor_seg ->
  inv i j st ->
  exists st',
    grid_minor_step m v_step v_wrap st j = Some st' /\
    inv i (j + 1) st'.
Proof.
  intros Hi Hj ((Hlen & Hindex & Hu & Hu' & Hpainted) & Hv & Hv').
  set (k := i * minor_seg + j) in *.
  assert (Hk : 0 <= k < count) by (unfold k; nia).
  unfold grid_minor_step. rewrite Hindex, (Hpolygons k Hk).
  cbn [mbind option_bind].
  destruct (set_corners_spec (g_uv_data st) k
              (u_prev st, v_prev st) (u_next st, v_prev st)
              (u_prev st, v_next st) (u_next st, v_next st))
    as (uv' & Hset & Hlen' & L0 & L1 & L3 & L2 & Hother); [lia..|].
  rewrite Hset. cbn [mbind option_bind].
  eexists. split; [reflexivity|].
  split; [|split]; cbn [g_uv_data vertex_index UV.u_prev UV.u_next
                         UV.v_prev UV.v_next].
  - split; [|split; [|split; [|split]]];
      cbn [g_uv_data vertex_index UV.u_prev UV.u_next].
    + rewrite Hlen'. exact Hlen.
    + unfold k. lia.
    + exact Hu.
    + exact Hu'.
    + intros k' Hk'. destruct (Z.eq_dec k' k) as [->|Hne].
      * unfold grid_painted. cbv zeta.
        destruct (div_mod_grid minor_seg i j Hj) as [Hdiv Hmod].
        fold k in Hdiv, Hmod. rewrite Hdiv, Hmod, <- Hu, <- Hv, <- Hu', <- Hv'.
        repeat split; assumption.
      * destruct (Hpainted k' ltac:(lia)) as (P0 & P1 & P3 & P2).
        unfold grid_painted. cbv zeta. rewrite !Hother by lia.
        repeat split; assumption.
  - rewrite grid_coord_succ by lia. cbv zeta. rewrite <- Hv, <- Hv'.
    reflexivity.
  - reflexivity.
Qed.

(** One ring of the grid. *)
Lemma grid_major_step_inv (i : Z) (st : grid_state) :
  0 <= i < major_seg ->
  ring_inv (i * minor_seg) i st ->
  exists st',
    grid_major_step m minor_seg u_step v_step v_init u_wrap v_wrap st i =
      Some st' /\
    ring_inv ((i + 1) * minor_seg) (i + 1) st'.
Proof.
  intros Hi (Hlen & Hindex & Hu & Hu' & Hpainted). unfold grid_major_step.
  replace (range minor_seg) with (range (Z.of_nat (Z.to_nat minor_seg)))
    by (f_equal; lia).
  match goal with
  | |- context [for_each_try _ _ ?s] => set (st0 := s)
  end.
  destruct (for_each_try_range (grid_minor_step m v_step v_wrap)
              (inv i) (Z.to_nat minor_seg) st0)
    as (st1 & Hrun & (Hlen1 & Hindex1 & Hu1 & Hu1' & Hpainted1) & _).
  - unfold st0. split; [|split]; cbn [UV.v_prev UV.v_next].
    + rewrite Z.add_0_r.
      split; [exact Hlen|]. split; [exact Hindex|]. split; [exact Hu|].
      split; [exact Hu' | exact Hpainted].
    + reflexivity.
    + reflexivity.
  - intros j s Hj Hs. apply grid_minor_step_inv; [exact Hi | lia | exact Hs].
  - rewrite Hrun. cbn [mbind option_bind].
    eexists. split; [reflexivity|].
    split; [|split; [|split; [|split]]];
      cbn [g_uv_data vertex_index UV.u_prev UV.u_next].
    + exact Hlen1.
    + rewrite Hindex1. lia.
    + rewrite grid_coord_succ by lia. cbv zeta. rewrite <- Hu1, <- Hu1'.
      reflexivity.
    + reflexivity.
    + intros k' Hk'. apply Hpainted1. lia.
Qed.

End grid_loops.

Section grid_run.

Import Mesh UV.
Context {T : Type} `{Float T}.

(** [add_uvs] on the values [grid_axis] gives for its two axes. *)
Lemma add_uvs_axes (m : mesh) (minor_seg major_seg : Z)
    (u_step u_init u_wrap v_step v_init v_wrap : T) :
  grid_axis major_seg = Some (u_step, u_init, u_wrap) ->
  grid_axis minor_seg = Some (v_step, v_init, v_wrap) ->
  add_uvs m minor_seg major_seg =
  (st ← for_each_try (range major_seg)
          (grid_major_step m minor_seg u_step v_step v_init u_wrap v_wrap)
          {| g_uv_data := new_layer m;
             vertex_index := 0;
             u_prev := u_init;
             u_next := add u_init u_step;
             v_prev := v_init;
             v_next := add v_init v_step |};
   Some (g_uv_data st)).
Proof.
  unfold grid_axis, add_uvs. intros Hu Hv.
  destruct (truediv lit_1_0 (of_int major_seg)) as [us|];
    [cbn [mbind option_bind] in Hu |-* | discriminate].
  destruct (truediv lit_1_0 (of_int minor_seg)) as [vs|];
    [cbn [mbind option_bind] in Hv |-* | discriminate].
  destruct (remainder lit_0_5 us) as [ur|];
    [cbn [mbind option_bind] in Hu |-* | discriminate].
  destruct (remainder lit_0_5 vs) as [vr|];
    [cbn [mbind option_bind] in Hv |-* | discriminate].
  destruct (truediv us lit_2_0) as [uh|];
    [cbn [mbind option_bind] in Hu |-* | discriminate].
  destruct (truediv vs lit_2_0) as [vh|];
    [cbn [mbind option_bind] in Hv |-* | discriminate].
  injection Hu as <- <- <-. injection Hv as <- <- <-. reflexivity.
Qed.

(** The grid mapper runs to its end on the mesh of [execute], and what
    holds then. *)
Lemma add_uvs_run (verts_loc : list R) (faces : list Z)
    (major_seg minor_seg : Z)
    (u_step u_init u_wrap v_step v_init v_wrap : T) :
  0 < major_seg -> 0 < minor_seg ->
  Z.of_nat (length faces) = 4 * (major_seg * minor_seg) ->
  grid_axis major_seg = Some (u_step, u_init, u_wrap) ->
  grid_axis minor_seg = Some (v_step, v_init, v_wrap) ->
  exists st',
    add_uvs (new_mesh verts_loc faces) minor_seg major_seg =
      Some (g_uv_data st') /\
    grid_ring_inv minor_seg u_step u_init u_wrap v_step v_init v_wrap
      major_seg (major_seg * minor_seg) major_seg st'.
Proof.
  intros Hmaj Hmin Hlen Hu Hv.
  rewrite (add_uvs_axes _ _ _ _ _ _ _ _ _ Hu Hv).
  replace (range major_seg) with (range (Z.of_nat (Z.to_nat major_seg)))
    by (f_equal; lia).
  match goal with
  | |- context [for_each_try _ _ ?s] => set (st0 := s)
  end.
  destruct (for_each_try_range
              (grid_major_step (new_mesh verts_loc faces) minor_seg
                 u_step v_step v_init u_wrap v_wrap)
              (fun i => grid_ring_inv minor_seg u_step u_init u_wrap
                          v_step v_init v_wrap major_seg (i * minor_seg) i)
              (Z.to_nat major_seg) st0)
    as (st' & Hrun & Hinv).
  - unfold st0. split; [|split; [|split; [|split]]];
      cbn [g_uv_data vertex_index UV.u_prev UV.u_next].
    + unfold new_layer. cbn [new_mesh loops_vertex_index].
      rewrite length_replicate. exact Hlen.
    + reflexivity.
    + reflexivity.
    + reflexivity.
    + intros k' Hk'. lia.
  - intros i s Hi Hs.
    apply (grid_major_step_inv (new_mesh verts_loc faces) minor_seg major_seg
             u_step u_init u_wrap v_step v_init v_wrap Hmin Hmaj
             (fun k Hk => new_mesh_polygon verts_loc faces _ k Hlen Hk)
             i s ltac:(lia) Hs).
  - rewrite Hrun. cbn [mbind option_bind].
    exists st'. split; [reflexivity|].
    rewrite Z2Nat.id in Hinv by lia. exact Hinv.
Qed.

(** Every loop of a layer the grid mapper has finished is written. *)
Lemma grid_all_written (minor_seg major_seg : Z)
    (u_step u_init u_wrap v_step v_init v_wrap : T) (st : grid_state) (l : Z) :
  grid_ring_inv minor_seg u_step u_init u_wrap v_step v_init v_wrap
    major_seg (major_seg * minor_seg) major_seg st ->
  0 <= l < 4 * (major_seg * minor_seg) ->
  exists x, g_uv_data st !! Z.to_nat l = Some (Some x).
Proof.
  intros (_ & _ & _ & _ & Hpainted) Hl.
  pose proof (Z.div_mod l 4 ltac:(lia)) as Hdm.
  pose proof (Z.mod_pos_bound l 4 ltac:(lia)) as Hmod.
  assert (Hk : 0 <= l / 4 < major_seg * minor_seg).
  { split; [apply Z.div_pos; lia | apply Z.div_lt_upper_bound; lia]. }
  destruct (Hpainted (l / 4) Hk) as (P0 & P1 & P3 & P2).
  assert (Hc : l = 4 * (l / 4) \/ l = 4 * (l / 4) + 1 \/
               l = 4 * (l / 4) + 3 \/ l = 4 * (l / 4) + 2) by lia.
  destruct Hc as [Hc | [Hc | [Hc | Hc]]]; rewrite Hc; eexists; eassumption.
Qed.

End grid_run.

(** ** The grid mapper in binary64 *)

Section grid_binary64.

Import Mesh UV Binary64.

Lemma all_in_spec (f : Z -> bool) (k : nat) (lo z : Z) :
  all_in f k lo = true -> lo <= z < lo + 2 ^ Z.of_nat k -> f z = true.
Proof.
  revert lo. induction k as [|k IH]; intros lo Hall Hz.
  - cbn in Hall, Hz. replace z with lo by lia. exact Hall.
  - cbn [all_in] in Hall. apply andb_prop in Hall as [Hlow Hhigh].
    assert (Hpow : 2 ^ Z.of_nat (S k) = 2 * 2 ^ Z.of_nat k).
    { rewrite Nat2Z.inj_succ. apply Z.pow_succ_r. lia. }
    destruct (Z_lt_le_dec z (lo + 2 ^ Z.of_nat k)) as [Hlt|Hge].
    + apply (IH lo Hlow). lia.
    + apply (IH _ Hhigh). lia.
Qed.

(** The axes of 2 to 257 segments, by evaluation. *)
Lemma axes_checked : all_in axis_ok 8 2 = true.
Proof. vm_compute. reflexivity. Qed.

(** The counts of 1 to 65536 faces are not zero as floats, by
    evaluation. *)
Lemma counts_checked :
  all_in (fun c => negb (is_zero (of_int c))) 16 1 = true.
Proof. vm_compute. reflexivity. Qed.

Lemma axis_near_spec (n : Z) (step init wrap : spec_float) (k i0 : nat) (c : Z) :
  0 < n ->
  axis_near n step wrap (grid_coord step init wrap i0) (c mod n) k = true ->
  forall i, (i < k)%nat ->
    near (grid_coord step init wrap (i0 + i)) ((c + Z.of_nat i) mod n) n = true /\
    near (add (grid_coord step init wrap (i0 + i)) step)
      ((c + Z.of_nat i) mod n + 1) n = true.
Proof.
  intros Hn. revert i0 c. induction k as [|k IH]; intros i0 c Hnear i Hi; [lia|].
  cbn [axis_near] in Hnear. cbv zeta in Hnear.
  apply andb_prop in Hnear as [Hhere Hrest].
  apply andb_prop in Hhere as [Hx Hnext].
  destruct i as [|i].
  - rewrite Nat.add_0_r, Z.add_0_r. split; assumption.
  - rewrite Z.add_mod_idemp_l in Hrest by lia.
    change (if gt (add (grid_coord step init wrap i0) step) wrap
            then sub (add (grid_coord step init wrap i0) step) lit_1_0
            else add (grid_coord step init wrap i0) step)
      with (grid_coord step init wrap (S i0)) in Hrest.
    specialize (IH (S i0) (c + 1) Hrest i ltac:(lia)).
    replace (i0 + S i)%nat with (S i0 + i)%nat by lia.
    replace (c + Z.of_nat (S i)) with (c + 1 + Z.of_nat i) by lia.
    exact IH.
Qed.

(** An axis of 2 to 256 segments: [add_uvs] gets its values, and the
    coordinate of step [i] is that of the cell [grid_cell n i]. *)
Lemma axis_cells (n : Z) :
  2 <= n <= 256 ->
  exists step init wrap : spec_float,
    grid_axis n = Some (step, init, wrap) /\
    forall i, 0 <= i < n ->
      near (grid_coord step init wrap (Z.to_nat i)) (grid_cell n i) n = true /\
      near (add (grid_coord step init wrap (Z.to_nat i)) step)
        (grid_cell n i + 1) n = true.
Proof.
  intros Hn.
  pose proof (all_in_spec axis_ok 8 2 n axes_checked ltac:(cbn; lia)) as Hok.
  unfold axis_ok in Hok.
  destruct (grid_axis n) as [[[step init] wrap]|]; [|discriminate].
  exists step, init, wrap. split; [reflexivity|].
  intros i Hi.
  pose proof (axis_near_spec n step init wrap (Z.to_nat n) 0
                (0 + grid_first_cell n) ltac:(lia) Hok (Z.to_nat i) ltac:(lia))
    as Hcell.
  rewrite Nat.add_0_l, Z2Nat.id in Hcell by lia.
  unfold grid_cell.
  replace (i + grid_first_cell n) with (0 + grid_first_cell n + i) by lia.
  exact Hcell.
Qed.

(** The step of the ribbon mapper for 1 to 65536 faces. *)
Lemma ribbon_step (count : Z) :
  1 <= count <= 65536 ->
  exists u_step : spec_float, truediv lit_1_0 (of_int count) = Some u_step.
Proof.
  intros Hc.
  pose proof (all_in_spec _ 16 1 count counts_checked ltac:(cbn; lia)) as Hok.
  cbv beta in Hok. unfold truediv.
  destruct (is_zero (of_int count)); [discriminate|].
  eexists. reflexivity.
Qed.

(** X6: in binary64, for 2 to 256 segments each way, the grid mapper
    raises nothing, writes every face once and lays the faces out as the
    cells of a [major_seg] by [minor_seg] grid of the unit square: the
    face of ring [i] and minor index [j] gets, within a millionth, the
    cell of column [grid_cell major_seg i] and row
    [grid_cell minor_seg j], with [(u, v)] on the loop of [i1],
    [(u', v)] on that of [i3], [(u, v')] on that of [i2] and [(u', v')]
    on that of [i4].  The columns follow each other cyclically from the
    one of ring 0, which is [(major_seg + 1) / 2], and one further when
    [major_seg] is even and [1.0 / major_seg] is rounded up; so for the
    rows. *)
Theorem grid_uv_tiles_unit_square (verts_loc : list R) (faces : list Z)
    (major_seg minor_seg : Z) :
  2 <= major_seg <= 256 -> 2 <= minor_seg <= 256 ->
  Z.of_nat (length faces) = 4 * (major_seg * minor_seg) ->
  exists uv,
    add_uvs (H := float_b64) (new_mesh verts_loc faces) minor_seg major_seg =
      Some uv /\
    Z.of_nat (length uv) = 4 * (major_seg * minor_seg) /\
    forall i j, 0 <= i < major_seg -> 0 <= j < minor_seg ->
      let a :=
        (i + ((major_seg + 1) / 2 +
              (if Z.even major_seg && step_rounded_up major_seg then 1 else 0)))
        mod major_seg in
      let b :=
        (j + ((minor_seg + 1) / 2 +
              (if Z.even minor_seg && step_rounded_up minor_seg then 1 else 0)))
        mod minor_seg in
      let k := i * minor_seg + j in
      exists u u' v v' : spec_float,
        near u a major_seg = true /\
        near u' (a + 1) major_seg = true /\
        near v b minor_seg = true /\
        near v' (b + 1) minor_seg = true /\
        uv !! Z.to_nat (4 * k) = Some (Some (u, v)) /\
        uv !! Z.to_nat (4 * k + 1) = Some (Some (u', v)) /\
        uv !! Z.to_nat (4 * k + 3) = Some (Some (u, v')) /\
        uv !! Z.to_nat (4 * k + 2) = Some (Some (u', v')).
Proof.
  intros Hmaj Hmin Hlen.
  destruct (axis_cells major_seg Hmaj) as (u_step & u_init & u_wrap & Hu & Hcol).
  destruct (axis_cells minor_seg Hmin) as (v_step & v_init & v_wrap & Hv & Hrow).
  destruct (add_uvs_run verts_loc faces major_seg minor_seg
              u_step u_init u_wrap v_step v_init v_wrap
              ltac:(lia) ltac:(lia) Hlen Hu Hv)
    as (st' & Hrun & Hlen' & _ & _ & _ & Hpainted).
  exists (g_uv_data st'). split; [exact Hrun|]. split; [exact Hlen'|].
  intros i j Hi Hj. cbv zeta.
  pose proof (Hpainted (i * minor_seg + j) ltac:(nia)) as Hk.
  unfold grid_painted in Hk. cbv zeta in Hk.
  destruct (div_mod_grid minor_seg i j Hj) as [Hdiv Hmod].
  rewrite Hdiv, Hmod in Hk. destruct Hk as (P0 & P1 & P3 & P2).
  destruct (Hcol i Hi) as [Ha Ha']. destruct (Hrow j Hj) as [Hb Hb'].
  eexists _, _, _, _.
  split; [exact Ha|]. split; [exact Ha'|].
  split; [exact Hb|]. split; [exact Hb'|].
  repeat split; assumption.
Qed.

(** Where the exact instance is not the code: for 10 major segments
    exact arithmetic starts ring 0 at 1/2, and binary64, in which
    [fmod(0.5, 1.0 / 10)] is nearly a whole step, at 6/10. *)
Remark grid_exact_a_cell_off :
  exists (uv_exact : uv_layer Q) (uv_b64 : uv_layer spec_float) v u' v',
    add_uvs (H := Exact.float_Q) (new_mesh [] (replicate 80 0)) 2 10 =
      Some uv_exact /\
    add_uvs (H := float_b64) (new_mesh [] (replicate 80 0)) 2 10 =
      Some uv_b64 /\
    uv_exact !! 0%nat = Some (Some ((1 # 2)%Q, v)) /\
    uv_b64 !! 0%nat = Some (Some (u', v')) /\
    near u' 6 10 = true.
Proof. vm_compute. eexists _, _, _, _, _. repeat split; reflexivity. Qed.

End grid_binary64.

(** ** The ribbon mapper run to its end *)

Section runs.

Import Mesh UV Binary64.

Lemma add_uvs_one_ribbon_run (verts_loc : list R) (faces : list Z)
    (major_seg minor_seg section_twist : Z) :
  0 < major_seg -> 0 < minor_seg -> major_seg * minor_seg <= 65536 ->
  Z.of_nat (length faces) = 4 * (major_seg * minor_seg) ->
  exists st',
    add_uvs_one_ribbon (H := float_b64) (new_mesh verts_loc faces)
      minor_seg major_seg section_twist = Some (r_uv_data st') /\
    ribbon_written_inv minor_seg major_seg section_twist
      (major_seg * minor_seg) st'.
Proof.
  intros Hmaj Hmin Hcount Hlen.
  destruct (ribbon_step (major_seg * minor_seg) ltac:(nia)) as (u_step & Hdiv).
  unfold add_uvs_one_ribbon. rewrite Hdiv. cbn [mbind option_bind].
  destruct (ribbon_loops_written (H := float_b64) (new_mesh verts_loc faces)
              minor_seg major_seg section_twist u_step Hmin Hmaj
              (fun k Hk => new_mesh_polygon verts_loc faces _ k Hlen Hk))
    as (st' & Hrun & Hinv).
  { unfold new_layer. cbn [new_mesh loops_vertex_index].
    rewrite length_replicate. exact Hlen. }
  rewrite Hrun. cbn [mbind option_bind].
  exists st'. split; [reflexivity | exact Hinv].
Qed.

End runs.

(** ** The whole of [execute] *)

Section execute.

Import Mesh UV Binary64 Operator.

Lemma update_radii_keeps (self : AddTorus) :
  major_segments (update_radii self) = major_segments self /\
  minor_segments (update_radii self) = minor_segments self /\
  section_angle (update_radii self) = section_angle self /\
  section_twist (update_radii self) = section_twist self /\
  mode (update_radii self) = mode self /\
  abso_major_rad (update_radii self) = abso_major_rad self /\
  abso_minor_rad (update_radii self) = abso_minor_rad self /\
  generate_uvs (update_radii self) = generate_uvs self.
Proof.
  unfold update_radii. destruct (mode self) eqn:Emode; cbn;
    repeat split; try reflexivity; exact Emode.
Qed.

(** X9: for 2 to 256 segments each way [execute] raises nothing, with
    the floats of the UV mappers in binary64: it returns the operator
    with its radii updated, each clamped to the range of its property, a
    mesh of [major_segments * minor_segments] vertices and as many
    quads, and a UV layer exactly when [generate_uvs] is set; the layer
    has one slot per loop, it is the one of the grid mapper, with every
    loop written, when the twist is a multiple of [minor_segments], and
    the one of the ribbon mapper otherwise. *)
Theorem execute_completes (self : AddTorus) :
  2 <= major_segments self <= 256 -> 2 <= minor_segments self <= 256 ->
  let count := major_segments self * minor_segments self in
  exists m uv,
    execute (H := float_b64) self = Some (update_radii self, m, uv) /\
    n_vertices m = count /\
    Z.of_nat (length (polygons m)) = count /\
    Z.of_nat (length (loops_vertex_index m)) = 4 * count /\
    (generate_uvs self = false -> uv = None) /\
    (generate_uvs self = true ->
     exists layer,
       uv = Some layer /\
       Z.of_nat (length layer) = 4 * count /\
       (section_twist self mod minor_segments self = 0 ->
        add_uvs m (minor_segments self) (major_segments self) = Some layer /\
        forall l, 0 <= l < 4 * count ->
          exists x, layer !! Z.to_nat l = Some (Some x)) /\
       (section_twist self mod minor_segments self <> 0 ->
        add_uvs_one_ribbon m (minor_segments self) (major_segments self)
          (section_twist self) = Some layer)).
Proof.
  intros Hmaj Hmin count.
  destruct (update_radii_keeps self)
    as (Kmaj & Kmin & Kangle & Ktwist & _ & _ & _ & Kuv).
  unfold execute. rewrite Kmaj, Kmin, Kangle, Ktwist.
  destruct (add_torus_mesh (major_radius (update_radii self))
              (minor_radius (update_radii self)) (major_segments self)
              (minor_segments self) (section_angle self) (section_twist self))
    as (verts_loc & faces & Heq & Hv & Hf & _); [lia..|].
  rewrite Heq. cbn [mbind option_bind].
  set (m := new_mesh verts_loc faces).
  assert (Hn : n_vertices m = count).
  { unfold m. cbn [new_mesh n_vertices]. rewrite Hv. symmetry.
    apply Z.div_unique_exact; lia. }
  assert (Hp : Z.of_nat (length (polygons m)) = count)
    by apply (new_mesh_polygons_length _ _ _ Hf).
  unfold add_uv_layer. rewrite Kuv, Kmaj, Kmin, Ktwist.
  destruct (generate_uvs self) eqn:Euv.
  - destruct (Z.eqb_spec (section_twist self mod minor_segments self) 0)
      as [Hgrid|Hribbon].
    + destruct (axis_cells (major_segments self) Hmaj)
        as (u_step & u_init & u_wrap & Hu & _).
      destruct (axis_cells (minor_segments self) Hmin)
        as (v_step & v_init & v_wrap & Hv' & _).
      destruct (add_uvs_run verts_loc faces (major_segments self)
                  (minor_segments self) u_step u_init u_wrap
                  v_step v_init v_wrap ltac:(lia) ltac:(lia) Hf Hu Hv')
        as (st' & Hrun & Hinv).
      fold m in Hrun. rewrite Hrun. cbn [fmap option_fmap option_map mbind option_bind].
      exists m, (Some (g_uv_data st')).
      split; [reflexivity|]. split; [exact Hn|]. split; [exact Hp|].
      split; [exact Hf|]. split; [discriminate|]. intros _.
      exists (g_uv_data st'). split; [reflexivity|].
      split; [apply Hinv|]. split; [|contradiction].
      intros _. split; [exact Hrun|].
      intros l Hl. apply (grid_all_written _ _ _ _ _ _ _ _ st' l Hinv Hl).
    + destruct (add_uvs_one_ribbon_run verts_loc faces
                  (major_segments self) (minor_segments self)
                  (section_twist self) ltac:(lia) ltac:(lia) ltac:(nia) Hf)
        as (st' & Hrun & Hinv).
      fold m in Hrun. rewrite Hrun. cbn [fmap option_fmap option_map mbind option_bind].
      exists m, (Some (r_uv_data st')).
      split; [reflexivity|]. split; [exact Hn|]. split; [exact Hp|].
      split; [exact Hf|]. split; [discriminate|]. intros _.
      exists (r_uv_data st'). split; [reflexivity|].
      split; [apply Hinv|]. split; [contradiction|].
      intros _. exact Hrun.
  - cbn [mbind option_bind]. exists m, None.
    split; [reflexivity|]. split; [exact Hn|]. split; [exact Hp|].
    split; [exact Hf|]. split; [reflexivity | discriminate].
Qed.

End execute.

(** ** A mesh too small for the grid mapper *)

Section grid_bounds.

Import Mesh UV.
Context {T : Type} `{Float T}.

(** What a loop that raised nothing has kept. *)
Lemma for_each_try_range_kept {St : Type} (body : St -> Z -> option St)
    (I : Z -> St -> Prop) (n : nat) (st st' : St) :
  I 0 st ->
  (forall k s s', 0 <= k < Z.of_nat n -> I k s -> body s k = Some s' ->
     I (k + 1) s') ->
  for_each_try (range (Z.of_nat n)) body st = Some st' ->
  I (Z.of_nat n) st'.
Proof.
  intros H0 Hstep. revert st'. unfold for_each_try.
  induction n as [|n IH]; intros st' Hrun.
  - injection Hrun as <-. exact H0.
  - rewrite range_succ, fold_left_app in Hrun. cbn [fold_left] in Hrun.
    destruct (fold_left _ (range (Z.of_nat n)) (Some st)) as [s|] eqn:Es;
      [|discriminate].
    cbn [mbind option_bind] in Hrun.
    replace (Z.of_nat (S n)) with (Z.of_nat n + 1) by lia.
    apply (Hstep (Z.of_nat n) s st'); [lia | | exact Hrun].
    apply IH; [|reflexivity]. intros k s0 s0' Hk. apply Hstep. lia.
Qed.

Lemma getitem_in_range {A} (s : list A) (i : Z) (x : A) :
  0 <= i -> getitem s i = Some x -> i < Z.of_nat (length s).
Proof.
  intros Hi. unfold getitem, index_of.
  destruct (Z.ltb_spec i 0) as [?|_]; [lia|].
  destruct (Z.leb_spec 0 i) as [_|?]; [|lia].
  destruct (Z.ltb_spec i (Z.of_nat (length s))) as [Hlt|_]; [|discriminate].
  intros _. exact Hlt.
Qed.

(** X14: [add_uvs] raises on a mesh with fewer polygons than
    [major_seg * minor_seg]: the polygon it indexes runs out. *)
Theorem add_uvs_needs_all_polygons (m : mesh) (minor_seg major_seg : Z) :
  0 < major_seg -> 0 < minor_seg ->
  Z.of_nat (length (polygons m)) < major_seg * minor_seg ->
  add_uvs m minor_seg major_seg = None.
Proof.
  intros Hmaj Hmin Hfew.
  destruct (add_uvs m minor_seg major_seg) as [uv|] eqn:Erun; [|reflexivity].
  exfalso. unfold add_uvs in Erun.
  repeat match type of Erun with
  | (?o ≫= _) = Some _ =>
      let E := fresh "E" in
      destruct o eqn:E; cbn [mbind option_bind] in Erun; [|discriminate]
  end.
  clear Erun.
  match goal with
  | E : for_each_try (range major_seg) ?body ?st0 = Some ?st' |- _ =>
      revert E; set (s0 := st0); set (major := body); intros Erun;
      rename st' into final
  end.
  set (I := fun (k : Z) (s : grid_state (T := T)) =>
              0 <= vertex_index s /\
              vertex_index s = k /\ k <= Z.of_nat (length (polygons m))).
  assert (Hminor : forall v_step v_wrap i j s s',
            0 <= j -> I (i * minor_seg + j) s ->
            grid_minor_step m v_step v_wrap s j = Some s' ->
            I (i * minor_seg + (j + 1)) s').
  { intros v_step v_wrap i j s s' Hj (Hpos & Hindex & _) Hstep.
    unfold grid_minor_step in Hstep.
    destruct (getitem (polygons m) (vertex_index s)) as [p|] eqn:Ep;
      [|discriminate].
    apply getitem_in_range in Ep; [|exact Hpos].
    cbn [mbind option_bind] in Hstep.
    destruct (set_corners _ _ _ _ _ _) as [uv'|]; [|discriminate].
    cbn [mbind option_bind] in Hstep. injection Hstep as <-.
    unfold I. cbn [vertex_index]. lia. }
  assert (Hmajor : forall i s s',
            0 <= i -> I (i * minor_seg) s -> major s i = Some s' ->
            I ((i + 1) * minor_seg) s').
  { intros i s s' Hi (Hpos & Hindex & Hle). unfold major, grid_major_step.
    match goal with
    | |- context [for_each_try (range minor_seg) ?body ?st1] =>
        set (s1 := st1); set (minor := body)
    end.
    destruct (for_each_try (range minor_seg) minor s1) as [s2|] eqn:Einner;
      [|discriminate].
    cbn [mbind option_bind]. intros Hs'. injection Hs' as <-.
    replace (range minor_seg) with (range (Z.of_nat (Z.to_nat minor_seg)))
      in Einner by (f_equal; lia).
    apply (for_each_try_range_kept minor (fun j => I (i * minor_seg + j)))
      in Einner.
    - destruct Einner as (Hpos2 & Hindex2 & Hle2).
      unfold I. cbn [vertex_index]. lia.
    - unfold I, s1. cbn [vertex_index]. lia.
    - intros j s3 s3' Hj Hs3. apply Hminor; [lia | exact Hs3]. }
  replace (range major_seg) with (range (Z.of_nat (Z.to_nat major_seg)))
    in Erun by (f_equal; lia).
  apply (for_each_try_range_kept major (fun i => I (i * minor_seg))) in Erun.
  - destruct Erun as (_ & _ & Hle). nia.
  - unfold I, s0. cbn [vertex_index]. lia.
  - intros i s s' Hi Hs. apply Hmajor; [lia | exact Hs].
Qed.

End grid_bounds.

(** ** The properties above on concrete parameters *)

Lemma vertices_on_torus_witness :
  0 < 3 /\ 0 < 4 /\
  exists verts_loc faces,
    Generator.add_torus 1 (1 / 4) 3 4 0 1 = Some (verts_loc, faces) /\
    forall i j, 0 <= i < 3 -> 0 <= j < 4 ->
      exists x y z,
        Mesh.vertex_at verts_loc (i * 4 + j) = Some (x, y, z) /\
        ((x * x + y * y + z * z + 1 * 1 - 1 / 4 * (1 / 4)) *
         (x * x + y * y + z * z + 1 * 1 - 1 / 4 * (1 / 4)) =
         4 * (1 * 1) * (x * x + y * y))%R.
Proof.
  split; [lia|]. split; [lia|].
  apply (vertices_on_torus 1 (1 / 4) 3 4 0 1); lia.
Defined.

Lemma seam_meets_placement_witness :
  0 < 3 /\ 0 < 4 /\ 0 <= 1 /\
  exists verts_loc faces,
    Generator.add_torus 1 (1 / 4) 3 4 0 1 = Some (verts_loc, faces) /\
    forall j, 0 <= j < 4 ->
      Mesh.vertex_at verts_loc (Generator.wrap 3 4 1 (3 * 4 + j)) =
      Some (Generator.vertex 1 (1 / 4) 3 4 0 1 3 j).
Proof.
  split; [lia|]. split; [lia|]. split; [lia|].
  apply (seam_meets_placement 1 (1 / 4) 3 4 0 1); lia.
Defined.

Lemma faces_share_no_corner_witness :
  1 <= 3 /\ 3 <= 4 /\
  exists verts_loc faces,
    Generator.add_torus 1 (1 / 4) 3 4 0 1 = Some (verts_loc, faces) /\
    forall k k' face face' (p : nat) x,
      0 <= k < 3 * 4 -> 0 <= k' < 3 * 4 ->
      Mesh.polygon_vertices (Mesh.new_mesh verts_loc faces) k = Some face ->
      Mesh.polygon_vertices (Mesh.new_mesh verts_loc faces) k' = Some face' ->
      face !! p = Some x -> face' !! p = Some x ->
      k = k'.
Proof.
  split; [lia|]. split; [lia|].
  apply (faces_share_no_corner 1 (1 / 4) 3 4 0 1); lia.
Defined.

Lemma twist_changes_only_seam_witness :
  1 <= 3 /\ 3 <= 4 /\
  exists verts0 faces0 verts_loc faces,
    Generator.add_torus 1 (1 / 4) 3 4 0 0 = Some (verts0, faces0) /\
    Generator.add_torus 1 (1 / 4) 3 4 0 1 = Some (verts_loc, faces) /\
    forall k, 0 <= k < 3 * 4 - 4 ->
      Mesh.polygon_vertices (Mesh.new_mesh verts_loc faces) k =
      Mesh.polygon_vertices (Mesh.new_mesh verts0 faces0) k.
Proof.
  split; [lia|]. split; [lia|].
  destruct (twist_changes_only_seam 1 (1 / 4) 3 4 0 1)
    as (verts0 & faces0 & verts_loc & faces & Heq0 & Heq & Hsame & _); [lia..|].
  exists verts0, faces0, verts_loc, faces. repeat split; assumption.
Defined.

Lemma grid_uv_tiles_unit_square_witness :
  2 <= 10 <= 256 /\ 2 <= 3 <= 256 /\
  Z.of_nat (length (replicate 120 0)) = 4 * (10 * 3) /\
  exists uv,
    UV.add_uvs (H := Binary64.float_b64) (Mesh.new_mesh [] (replicate 120 0)) 3 10 =
      Some uv /\
    Z.of_nat (length uv) = 4 * (10 * 3).
Proof.
  split; [lia|]. split; [lia|]. split; [reflexivity|].
  destruct (grid_uv_tiles_unit_square [] (replicate 120 0) 10 3)
    as (uv & Huv & Hlen & _); [lia | lia | reflexivity |].
  exists uv. split; assumption.
Defined.

Lemma ribbon_uv_coprime_witness :
  0 < 3 /\ 0 < 4 /\ Z.gcd 1 4 = 1 /\
  Z.of_nat (length (replicate 48 0)) = 4 * (3 * 4) /\
  exists uv,
    UV.add_uvs_one_ribbon (H := Exact.float_Q)
      (Mesh.new_mesh [] (replicate 48 0)) 4 3 1 = Some uv /\
    Z.of_nat (length uv) = 4 * (3 * 4).
Proof.
  split; [lia|]. split; [lia|]. split; [reflexivity|]. split; [reflexivity|].
  destruct (ribbon_uv_coprime [] (replicate 48 0) 3 4 1)
    as (uv & Huv & Hlen & _); [lia | lia | reflexivity | reflexivity |].
  exists uv. split; assumption.
Defined.

Lemma ribbon_uv_written_tracks_witness :
  0 < 3 /\ 0 < 4 /\
  Z.of_nat (length (replicate 48 0)) = 4 * (3 * 4) /\
  exists uv,
    UV.add_uvs_one_ribbon (H := Exact.float_Q)
      (Mesh.new_mesh [] (replicate 48 0)) 4 3 2 = Some uv /\
    Z.of_nat (length uv) = 4 * (3 * 4).
Proof.
  split; [lia|]. split; [lia|]. split; [reflexivity|].
  destruct (ribbon_uv_written_tracks [] (replicate 48 0) 3 4 2)
    as (uv & Huv & Hlen & _); [lia | lia | reflexivity |].
  exists uv. split; assumption.
Defined.

Lemma mesh_loops_round_trip_witness :
  Z.of_nat (length [0; 2; 3; 1; 1; 3; 0; 2]) = 4 * 2 /\
  flat_map Mesh.loop_indices
    (Mesh.polygons (Mesh.new_mesh [] [0; 2; 3; 1; 1; 3; 0; 2])) = range (4 * 2).
Proof.
  split; [reflexivity|].
  apply (mesh_loops_round_trip [] [0; 2; 3; 1; 1; 3; 0; 2] 2). reflexivity.
Defined.

Lemma add_torus_twist_period_witness :
  0 < 3 /\ 0 < 4 /\
  Generator.add_torus 1 (1 / 4) 3 4 0 (1 + 3 * 4) =
  Generator.add_torus 1 (1 / 4) 3 4 0 1.
Proof.
  split; [lia|]. split; [lia|].
  apply (add_torus_twist_period 1 (1 / 4) 3 4 0 1); lia.
Defined.


Lemma execute_completes_witness :
  let self :=
    {| Operator.major_segments := 48; Operator.minor_segments := 12;
       Operator.section_angle := 0; Operator.section_twist := 5;
       Operator.mode := Operator.EXT_INT;
       Operator.major_radius := 1; Operator.minor_radius := 1 / 4;
       Operator.abso_major_rad := 3; Operator.abso_minor_rad := 1;
       Operator.generate_uvs := true |} in
  2 <= 48 <= 256 /\ 2 <= 12 <= 256 /\
  exists m uv,
    Operator.execute (H := Binary64.float_b64) self =
      Some (Operator.update_radii self, m, uv) /\
    Mesh.n_vertices m = 48 * 12.
Proof.
  intros self. split; [lia|]. split; [lia|].
  destruct (execute_completes self) as (m & uv & Hrun & Hn & _);
    [unfold self; cbn; lia..|].
  exists m, uv. split; assumption.
Defined.

Lemma add_uvs_needs_all_polygons_witness :
  0 < 3 /\ 0 < 2 /\
  Z.of_nat (length (Mesh.polygons (Mesh.new_mesh [] [0; 2; 3; 1]))) < 3 * 2 /\
  UV.add_uvs (H := Exact.float_Q) (Mesh.new_mesh [] [0; 2; 3; 1]) 2 3 = None.
Proof.
  split; [lia|]. split; [lia|]. split; [vm_compute; reflexivity|].
  apply add_uvs_needs_all_polygons; [lia | lia | vm_compute; reflexivity].
Defined.
